(** * gitlab-downloader: a shallow embedding of [cli.js] and its sequential
    predecessor, with the properties of the traversal engine, the include
    filter and the run-skip cache.

    Conventions.  A JavaScript string is modelled by a Rocq [string] holding
    its UTF-8 bytes (well-formed text, which is what the command line and the
    JSON answers of the server deliver): concatenation, [===] and
    [String.prototype.includes] agree on both views.  Remote calls, disk
    accesses and calls of the console are recorded as events of a trace; the
    answers of the server and of the disk are given by a [world]. *)

From Stdlib Require Import Init.Byte String Ascii List ZArith Lia Bool Permutation.
Import ListNotations.

Local Open Scope string_scope.
Local Open Scope list_scope.

(* ================================================================== *)
(** * Strings *)

(** [t] matches [s] at position 0. *)
Fixpoint starts_with (s t : string) {struct t} : bool :=
  match t with
  | EmptyString => true
  | String c t' =>
      match s with
      | EmptyString => false
      | String d s' => Ascii.eqb c d && starts_with s' t'
      end
  end.

(** [s.includes(t)]: [t] occurs in [s] at some position. *)
Fixpoint includes (s t : string) : bool :=
  if starts_with s t then true
  else match s with
       | EmptyString => false
       | String _ s' => includes s' t
       end.

(** Truthiness of a JavaScript string: every string but the empty one. *)
Definition truthy (s : string) : bool :=
  match s with
  | EmptyString => false
  | String _ _ => true
  end.

(** [t] is a substring of [s], anywhere. *)
Definition is_substring (t s : string) : Prop :=
  exists pre post, s = (pre ++ t ++ post)%string.

(** [l.join(sep)] on an array of strings. *)
Fixpoint join (sep : string) (l : list string) : string :=
  match l with
  | [] => EmptyString
  | [x] => x
  | x :: rest => (x ++ sep ++ join sep rest)%string
  end.

(* ================================================================== *)
(** * Configuration (the constants read from [argv]) *)

Record config := {
  GITLAB_HOST : string;
  TOKEN : string;
  PROJECT_ID : string;
  BRANCH : string;
  DOWNLOAD_DIR : string;
  INCLUDE_ONLY : list string
}.

(** Root folders to scan. *)
Definition FOLDERS_TO_DOWNLOAD : list string := ["proto"; "build"].

(** An entry of a tree listing, as the server returns it. *)
Record item := { name : string; type : string }.

(** [folderPath ? `${folderPath}/${item.name}` : item.name] *)
Definition fullPath (folderPath : string) (it : item) : string :=
  if truthy folderPath then (folderPath ++ "/" ++ name it)%string else name it.

(** [INCLUDE_ONLY.some((accept) => fullPath.includes(accept))] *)
Definition some_accepts (cfg : config) (fp : string) : bool :=
  existsb (fun accept => includes fp accept) (INCLUDE_ONLY cfg).

(** The guard of the "Ignoring folder" branch of [downloadFolder]:
    [INCLUDE_ONLY.length > 0 && item.type === 'tree' && !INCLUDE_ONLY.some(...)]. *)
Definition ignoring (cfg : config) (it : item) (fp : string) : bool :=
  (0 <? List.length (INCLUDE_ONLY cfg))%nat
  && (type it =? "tree")%string
  && negb (some_accepts cfg fp).

(** [s.split(sep)] for a one-character separator. *)
Fixpoint split_on (sep : ascii) (s : string) : list string :=
  match s with
  | EmptyString => [EmptyString]
  | String c s' =>
      if Ascii.eqb c sep then EmptyString :: split_on sep s'
      else match split_on sep s' with
           | [] => [String c EmptyString]
           | seg :: segs => String c seg :: segs
           end
  end.

(** [argv.includeOnly ? argv.includeOnly.split(',') : []] *)
Definition include_only_of (includeOnly : option string) : list string :=
  match includeOnly with
  | None => []
  | Some s => if truthy s then split_on "," s else []
  end.

(* ================================================================== *)
(** * JSON values and [JSON.stringify] *)

#[warnings="-register-all"]
Inductive json :=
| JNull
| JBool (b : bool)
| JNum (n : Z)
| JStr (s : string)
| JArr (elems : list json)
| JObj (fields : list (string * json)).

(** Own property [k] of an object literal; a later duplicate key wins, as in
    [JSON.parse].  [None] is [undefined]. *)
Fixpoint lookup_last (k : string) (fields : list (string * json)) : option json :=
  match fields with
  | [] => None
  | (k', v) :: rest =>
      match lookup_last k rest with
      | Some w => Some w
      | None => if (k =? k')%string then Some v else None
      end
  end.

(** [v.commit] and [v.argsHash] on a value read from the cache file: arrays,
    strings, numbers and booleans have no such property. *)
Definition get_prop (v : json) (k : string) : option json :=
  match v with
  | JObj fields => lookup_last k fields
  | _ => None
  end.

(** [const { commit: cachedCommit, argsHash: cachedArgsHash } = cachedData];
    destructuring [null] throws a TypeError ([None]). *)
Definition destructure (cachedData : json) : option (option json * option json) :=
  match cachedData with
  | JNull => None
  | v => Some (get_prop v "commit", get_prop v "argsHash")
  end.

(** [s === v] for a string [s] and a possibly undefined JSON value [v]. *)
Definition strict_eq (s : string) (v : option json) : bool :=
  match v with
  | Some (JStr t) => (s =? t)%string
  | _ => false
  end.

Definition dquote : ascii := "034"%char.
Definition backslash : ascii := "092"%char.

Definition hex_digits : list ascii :=
  ["0"; "1"; "2"; "3"; "4"; "5"; "6"; "7"; "8"; "9"; "a"; "b"; "c"; "d"; "e"; "f"]%char.

Definition hex_digit (n : nat) : ascii := nth n hex_digits "0"%char.

(** The JSON escape of one character (QuoteJSONString): the short escapes,
    [\u00XX] for the other control characters, the character itself
    otherwise. *)
Definition escape_char (c : ascii) : string :=
  let n := nat_of_ascii c in
  if (n =? 8)%nat then "\b"
  else if (n =? 9)%nat then "\t"
  else if (n =? 10)%nat then "\n"
  else if (n =? 12)%nat then "\f"
  else if (n =? 13)%nat then "\r"
  else if (n =? 34)%nat then String backslash (String dquote EmptyString)
  else if (n =? 92)%nat then String backslash (String backslash EmptyString)
  else if (n <? 32)%nat then
    ("\u00" ++ String (hex_digit (n / 16)) (String (hex_digit (n mod 16)) EmptyString))%string
  else String c EmptyString.

Fixpoint escape (s : string) : string :=
  match s with
  | EmptyString => EmptyString
  | String c s' => (escape_char c ++ escape s')%string
  end.

(** [JSON.stringify] of a string. *)
Definition quote (s : string) : string :=
  String dquote (escape s ++ String dquote EmptyString).

(** [JSON.stringify] of an array of strings. *)
Definition stringify_array (l : list string) : string :=
  ("[" ++ join "," (map quote l) ++ "]")%string.

(** Reading back one escaped character at the head of a string: the inverse
    of [escape_char], used to show that [JSON.stringify] loses nothing.  A
    double quote ends the string and is not read. *)
Fixpoint index_of (c : ascii) (l : list ascii) : option nat :=
  match l with
  | [] => None
  | d :: l' => if Ascii.eqb c d then Some O else option_map S (index_of c l')
  end.

Definition hex_value (c : ascii) : option nat := index_of c hex_digits.

Definition unescape_char (s : string) : option (ascii * string) :=
  match s with
  | EmptyString => None
  | String c rest =>
      if Ascii.eqb c dquote then None
      else if Ascii.eqb c backslash then
        match rest with
        | EmptyString => None
        | String e rest' =>
            if Ascii.eqb e "b" then Some (ascii_of_nat 8, rest')
            else if Ascii.eqb e "t" then Some (ascii_of_nat 9, rest')
            else if Ascii.eqb e "n" then Some (ascii_of_nat 10, rest')
            else if Ascii.eqb e "f" then Some (ascii_of_nat 12, rest')
            else if Ascii.eqb e "r" then Some (ascii_of_nat 13, rest')
            else if Ascii.eqb e dquote then Some (dquote, rest')
            else if Ascii.eqb e backslash then Some (backslash, rest')
            else if Ascii.eqb e "u" then
              match rest' with
              | String _ (String _ (String h1 (String h2 rest''))) =>
                  match hex_value h1, hex_value h2 with
                  | Some a, Some b => Some (ascii_of_nat (16 * a + b), rest'')
                  | _, _ => None
                  end
              | _ => None
              end
            else None
        end
      else Some (c, rest)
  end.

(* ================================================================== *)
(** * SHA-256 (FIPS 180-4), as [crypto.createHash('sha256')] computes it *)

Module SHA256.
Local Open Scope Z_scope.

Definition add32 (x y : Z) : Z := (x + y) mod 2 ^ 32.
Definition rotr (n x : Z) : Z :=
  Z.lor (Z.shiftr x n) (Z.shiftl x (32 - n) mod 2 ^ 32).
Definition shr (n x : Z) : Z := Z.shiftr x n.
Definition not32 (x : Z) : Z := Z.lxor x 0xffffffff.

Definition Ch (x y z : Z) : Z := Z.lxor (Z.land x y) (Z.land (not32 x) z).
Definition Maj (x y z : Z) : Z :=
  Z.lxor (Z.lxor (Z.land x y) (Z.land x z)) (Z.land y z).
Definition Sigma0 (x : Z) : Z := Z.lxor (Z.lxor (rotr 2 x) (rotr 13 x)) (rotr 22 x).
Definition Sigma1 (x : Z) : Z := Z.lxor (Z.lxor (rotr 6 x) (rotr 11 x)) (rotr 25 x).
Definition sigma0 (x : Z) : Z := Z.lxor (Z.lxor (rotr 7 x) (rotr 18 x)) (shr 3 x).
Definition sigma1 (x : Z) : Z := Z.lxor (Z.lxor (rotr 17 x) (rotr 19 x)) (shr 10 x).

(** The largest [r] below [2 ^ bits] with [r ^ 3 <= n], one bit at a time. *)
Fixpoint cube_root (bits : nat) (n r : Z) : Z :=
  match bits with
  | O => r
  | S b =>
      let r' := r + 2 ^ Z.of_nat b in
      cube_root b n (if r' * r' * r' <=? n then r' else r)
  end.

Definition primes : list Z :=
  [2; 3; 5; 7; 11; 13; 17; 19; 23; 29; 31; 37; 41; 43; 47; 53;
   59; 61; 67; 71; 73; 79; 83; 89; 97; 101; 103; 107; 109; 113; 127; 131;
   137; 139; 149; 151; 157; 163; 167; 173; 179; 181; 191; 193; 197; 199; 211; 223;
   227; 229; 233; 239; 241; 251; 257; 263; 269; 271; 277; 281; 283; 293; 307; 311].

(** The round constants: the first 32 bits of the fractional parts of the
    cube roots of the first 64 primes. *)
Definition K : list Z :=
  Eval vm_compute in map (fun p => cube_root 36 (p * 2 ^ 96) 0 mod 2 ^ 32) primes.

(** The eight working words. *)
Definition state : Type := (Z * Z * Z * Z * Z * Z * Z * Z)%type.

Definition H0 : state :=
  (0x6a09e667, 0xbb67ae85, 0x3c6ef372, 0xa54ff53a,
   0x510e527f, 0x9b05688c, 0x1f83d9ab, 0x5be0cd19).

(** Padding: the byte 0x80, zero bytes up to 56 modulo 64, then the length
    in bits on eight bytes, most significant first. *)
Definition be_bytes (n : nat) (x : Z) : list Z :=
  map (fun i => (x / 256 ^ Z.of_nat i) mod 256) (rev (seq 0 n)).

Definition pad (msg : list Z) : list Z :=
  let len := Z.of_nat (List.length msg) in
  msg ++ [0x80] ++ repeat 0 (Z.to_nat ((55 - len) mod 64)) ++ be_bytes 8 (8 * len).

Fixpoint words_of_bytes (l : list Z) : list Z :=
  match l with
  | b0 :: b1 :: b2 :: b3 :: rest =>
      (b0 * 2 ^ 24 + b1 * 2 ^ 16 + b2 * 2 ^ 8 + b3) :: words_of_bytes rest
  | _ => []
  end.

Fixpoint blocks_of_words (n : nat) (ws : list Z) : list (list Z) :=
  match n with
  | O => []
  | S n' => firstn 16 ws :: blocks_of_words n' (skipn 16 ws)
  end.

(** Message schedule: [recent] holds the sixteen previous words, the latest
    first; the result is the next [n] words. *)
Fixpoint schedule (n : nat) (recent : list Z) : list Z :=
  match n with
  | O => []
  | S n' =>
      let wt :=
        add32 (add32 (add32 (sigma1 (nth 1 recent 0)) (nth 6 recent 0))
                     (sigma0 (nth 14 recent 0)))
              (nth 15 recent 0) in
      wt :: schedule n' (wt :: firstn 15 recent)
  end.

Definition round (st : state) (kw : Z * Z) : state :=
  let '(a, b, c, d, e, f, g, h) := st in
  let '(k, w) := kw in
  let T1 := add32 (add32 (add32 (add32 h (Sigma1 e)) (Ch e f g)) k) w in
  let T2 := add32 (Sigma0 a) (Maj a b c) in
  (add32 T1 T2, a, b, c, add32 d T1, e, f, g).

Definition compress (H : state) (block : list Z) : state :=
  let W := block ++ schedule 48 (rev block) in
  let '(a, b, c, d, e, f, g, h) := fold_left round (combine K W) H in
  let '(h0, h1, h2, h3, h4, h5, h6, h7) := H in
  (add32 h0 a, add32 h1 b, add32 h2 c, add32 h3 d,
   add32 h4 e, add32 h5 f, add32 h6 g, add32 h7 h).

Definition digest (msg : list Z) : state :=
  let ws := words_of_bytes (pad msg) in
  fold_left compress (blocks_of_words (List.length ws / 16) ws) H0.

(** Eight lowercase hexadecimal digits of a word. *)
Definition hex32 (x : Z) : string :=
  string_of_list_ascii
    (map (fun i => hex_digit (Z.to_nat ((x / 16 ^ Z.of_nat i) mod 16)))
         (rev (seq 0 8))).

Definition hex (H : state) : string :=
  let '(h0, h1, h2, h3, h4, h5, h6, h7) := H in
  (hex32 h0 ++ hex32 h1 ++ hex32 h2 ++ hex32 h3
   ++ hex32 h4 ++ hex32 h5 ++ hex32 h6 ++ hex32 h7)%string.

Definition bytes_of_string (s : string) : list Z :=
  map (fun c => Z.of_nat (nat_of_ascii c)) (list_ascii_of_string s).

(** [crypto.createHash('sha256').update(s).digest('hex')] *)
Definition sha256_hex (s : string) : string := hex (digest (bytes_of_string s)).
End SHA256.

(* ================================================================== *)
(** * [path.join] (POSIX) *)

(** [normalizeString]: empty and [.] segments are dropped, [..] removes the
    segment before it (or is kept, in a relative path, when there is none). *)
Definition normalize_step (allowAboveRoot : bool) (res : list string) (seg : string)
  : list string :=
  if ((seg =? EmptyString) || (seg =? "."))%string then res
  else if (seg =? "..")%string then
    match res with
    | last :: rest =>
        if (last =? "..")%string
        then (if allowAboveRoot then ".." :: res else res)
        else rest
    | [] => if allowAboveRoot then [".."] else []
    end
  else seg :: res.

Definition normalizeString (allowAboveRoot : bool) (path : string) : string :=
  join "/" (rev (fold_left (normalize_step allowAboveRoot) (split_on "/" path) [])).

Fixpoint ends_with_slash (s : string) : bool :=
  match s with
  | EmptyString => false
  | String c EmptyString => Ascii.eqb c "/"
  | String _ s' => ends_with_slash s'
  end.

Definition normalize (path : string) : string :=
  if (path =? EmptyString)%string then "."
  else
    let isAbsolute := starts_with path "/" in
    let trailingSeparator := ends_with_slash path in
    let p := normalizeString (negb isAbsolute) path in
    if (p =? EmptyString)%string then
      (if isAbsolute then "/" else if trailingSeparator then "./" else ".")
    else
      let p := if trailingSeparator then (p ++ "/")%string else p in
      if isAbsolute then ("/" ++ p)%string else p.

(** [path.join(...args)]: the non-empty arguments joined by [/], normalized. *)
Definition path_join (args : list string) : string :=
  match filter truthy args with
  | [] => "."
  | segs => normalize (join "/" segs)
  end.
(* ================================================================== *)
(** * Events, traces and the world *)

Inductive level := Log | Debug | Warn | Error.

(** What a run does to the outside: the three kinds of GET request, the file
    writes that succeeded, the accesses to the cache file and the calls of
    the console.

    [Console lvl msg] is a call with the one string [msg], which is then the
    line printed.

    [ConsoleWith lvl template detail] is a call with two arguments, the
    form of the three [catch] blocks that report a failed request, [detail]
    being the value of [error.response?.data || error.message].  Node reads
    the first argument as a format string, so that the line printed is
    [template], a space and [detail] only when [template] holds no [%]
    directive; the event keeps the two arguments and says nothing on the
    line.

    [ConsoleThrown lvl name] is a call with the error object that was
    caught, of class [name]; Node prints the stack of the error. *)
Inductive event :=
| GetCommit
| GetTree (folderPath : string)
| GetRaw (filePath : string)
| OutputFile (localPath : string) (data : list byte)
| MkdirpCache
| ReadCache
| WriteCache (v : json)
| Console (lvl : level) (msg : string)
| ConsoleWith (lvl : level) (template : string) (detail : string)
| ConsoleThrown (lvl : level) (name : string).

Definition trace := list event.

(** The answer to a request: the data, or the detail of the error thrown. *)
Inductive response (A : Type) :=
| Ok (data : A)
| Failed (detail : string).
Arguments Ok {A} data.
Arguments Failed {A} detail.

(** The surroundings of one run.  For the fixed host, project, branch and
    token of the run, a request is determined by the path it asks for.
    [commit_resp] is [response.data.id] of the commit lookup, [output_resp]
    the error message of [fs.outputFile], if it throws, and [cache_file] the
    JSON value in [last_commit.json], if the file exists and parses. *)
Record world := {
  cwd : string;
  commit_resp : response string;
  tree_resp : string -> response (list item);
  raw_resp : string -> response (list byte);
  output_resp : string -> option string;
  cache_file : option json
}.

Definition is_remote_fetch (e : event) : bool :=
  match e with
  | GetTree _ | GetRaw _ => true
  | _ => false
  end.

(** The events a traversal can leave: listings, fetches, writes and calls of
    the console. *)
Definition is_traversal (e : event) : bool :=
  match e with
  | GetTree _ | GetRaw _ | OutputFile _ _ => true
  | Console _ _ | ConsoleWith _ _ _ | ConsoleThrown _ _ => true
  | _ => false
  end.

Definition is_console (e : event) : bool :=
  match e with
  | Console _ _ | ConsoleWith _ _ _ | ConsoleThrown _ _ => true
  | _ => false
  end.

(** The trace without its calls of the console. *)
Definition effects (tr : trace) : trace := filter (fun e => negb (is_console e)) tr.

(** [tr] interleaves the traces [trs], keeping the order inside each. *)
Inductive shuffle {A : Type} : list (list A) -> list A -> Prop :=
| shuffle_done : forall trs, Forall (fun t => t = []) trs -> shuffle trs []
| shuffle_next : forall before x t after tr,
    shuffle (before ++ t :: after) tr ->
    shuffle (before ++ (x :: t) :: after) (x :: tr).

(* ================================================================== *)
(** * The operations common to both programs *)

Section Operations.
Variable W : world.
Variable cfg : config.

(** [fetchTree(folderPath)]: the listing, or [[]] and a call of
    [console.error] with the template and the detail. *)
Definition fetchTree (folderPath : string) : list item * trace :=
  match tree_resp W folderPath with
  | Ok items => (items, [GetTree folderPath])
  | Failed detail =>
      ([], [GetTree folderPath;
            ConsoleWith Error ("Failed to fetch tree for " ++ folderPath ++ ":") detail])
  end.

(** [path.join(process.cwd(), DOWNLOAD_DIR, filePath)] *)
Definition localPath (filePath : string) : string :=
  path_join [cwd W; DOWNLOAD_DIR cfg; filePath].

(** The [catch] of [downloadFile]: [console.error] is called with the
    template that names the file and with the detail. *)
Definition failed_download (filePath detail : string) : event :=
  ConsoleWith Error ("Failed to download " ++ filePath ++ ":") detail.

(** [downloadFile(filePath)]; the two programs differ in the level of the
    "Downloaded" line only ([console.debug] in cli.js, [console.log]
    before). *)
Definition downloadFile_at (lvl : level) (filePath : string) : trace :=
  match raw_resp W filePath with
  | Ok data =>
      match output_resp W (localPath filePath) with
      | None =>
          [GetRaw filePath; OutputFile (localPath filePath) data;
           Console lvl ("Downloaded: " ++ localPath filePath)]
      | Some detail => [GetRaw filePath; failed_download filePath detail]
      end
  | Failed detail => [GetRaw filePath; failed_download filePath detail]
  end.

Definition ignoring_line (fp : string) : event :=
  Console Log ("Ignoring folder: " ++ fp ++ " (not in includeOnly list)").

(** The two opening lines of [main]. *)
Definition opening : trace :=
  [Console Log ("Starting download from project ID: " ++ PROJECT_ID cfg
                ++ " on branch: " ++ BRANCH cfg);
   if (0 <? List.length (INCLUDE_ONLY cfg))%nat
   then Console Log ("Filtering: Only downloading folders that match "
                     ++ join ", " (INCLUDE_ONLY cfg))
   else Console Log "No filter applied. Downloading all folders."].
End Operations.

(* ================================================================== *)
(** * Traversal in the order of the listings *)

(** [downloadFolder] of the second source file, where every child is awaited
    before the next one is visited.  The level of the "Downloaded" line is a
    parameter, so that the same walk also gives one schedule of the parallel
    engine of cli.js. *)
Section Walk.
Variable W : world.
Variable cfg : config.
Variable lvl : level.

(** The body of the [for] loop, [rec] being the recursive call. *)
Definition visit (rec : string -> option trace) (folderPath : string) (it : item)
  : option trace :=
  let fp := fullPath folderPath it in
  if ignoring cfg it fp then Some [ignoring_line fp]
  else if (type it =? "blob")%string then Some (downloadFile_at W cfg lvl fp)
  else if (type it =? "tree")%string then rec fp
  else Some [].

Fixpoint loop (rec : string -> option trace) (folderPath : string) (items : list item)
  : option trace :=
  match items with
  | [] => Some []
  | it :: rest =>
      match visit rec folderPath it with
      | None => None
      | Some t =>
          match loop rec folderPath rest with
          | None => None
          | Some t' => Some (t ++ t')
          end
      end
  end.

(** [fuel] bounds the depth of the recursion, [None] meaning that the bound
    was reached. *)
Fixpoint walk (fuel : nat) (folderPath : string) : option trace :=
  match fuel with
  | O => None
  | S n =>
      match loop (walk n) folderPath (fst (fetchTree W folderPath)) with
      | None => None
      | Some body => Some (snd (fetchTree W folderPath) ++ body)
      end
  end.

(** [for (const folder of folders) await downloadFolder(folder)] *)
Fixpoint walk_all (fuel : nat) (folders : list string) : option trace :=
  match folders with
  | [] => Some []
  | folder :: rest =>
      match walk fuel folder with
      | None => None
      | Some t =>
          match walk_all fuel rest with
          | None => None
          | Some t' => Some (t ++ t')
          end
      end
  end.
End Walk.

(* ================================================================== *)
(** * The sequential program (the second source file) *)

Module Seq.
Definition downloadFile (W : world) (cfg : config) : string -> trace :=
  downloadFile_at W cfg Log.

Definition downloadFolder (W : world) (cfg : config) : nat -> string -> option trace :=
  walk W cfg Log.

Definition main (W : world) (cfg : config) (fuel : nat) : option trace :=
  match walk_all W cfg Log fuel FOLDERS_TO_DOWNLOAD with
  | None => None
  | Some tr => Some (opening cfg ++ tr ++ [Console Log "Download complete."])
  end.
End Seq.

(* ================================================================== *)
(** * cli.js: the parallel engine and the run-skip cache *)

Module Cli.
(** The string hashed by [generateArgsHash]:
    [JSON.stringify({ PROJECT_ID, BRANCH, INCLUDE_ONLY, DOWNLOAD_DIR })]. *)
Definition argsString (cfg : config) : string :=
  ("{" ++ quote "PROJECT_ID" ++ ":" ++ quote (PROJECT_ID cfg)
   ++ "," ++ quote "BRANCH" ++ ":" ++ quote (BRANCH cfg)
   ++ "," ++ quote "INCLUDE_ONLY" ++ ":" ++ stringify_array (INCLUDE_ONLY cfg)
   ++ "," ++ quote "DOWNLOAD_DIR" ++ ":" ++ quote (DOWNLOAD_DIR cfg)
   ++ "}")%string.

Definition generateArgsHash (cfg : config) : string :=
  SHA256.sha256_hex (argsString cfg).

(** The record kept in the cache file. *)
Record RunState := { commit : string; argsHash : string }.

(** What [fs.writeJsonSync(COMMIT_FILE, { commit, argsHash })] stores. *)
Definition cache_record (commit argsHash : string) : json :=
  JObj [("commit", JStr commit); ("argsHash", JStr argsHash)].

(** The cache file left by an earlier run, if there was one. *)
Definition stored (prior : option RunState) : option json :=
  match prior with
  | Some st => Some (cache_record (commit st) (argsHash st))
  | None => None
  end.

(** The condition of the skip:
    [latestCommitHash === cachedCommit && currentArgsHash === cachedArgsHash],
    after the destructuring of [cachedData] ([None] when it throws). *)
Definition skip_check (latestCommitHash currentArgsHash : string) (cachedData : json)
  : option bool :=
  match destructure cachedData with
  | None => None
  | Some (cachedCommit, cachedArgsHash) =>
      Some (strict_eq latestCommitHash cachedCommit
            && strict_eq currentArgsHash cachedArgsHash)
  end.

Section Run.
Variable W : world.
Variable cfg : config.

(** [fetchLatestCommitHash()]: the id, or [null] and a call of
    [console.error] with the template and the detail. *)
Definition fetchLatestCommitHash : option string * trace :=
  match commit_resp W with
  | Ok id => (Some id, [GetCommit])
  | Failed detail =>
      (None, [GetCommit; ConsoleWith Error "Failed to fetch latest commit:" detail])
  end.

(** [fs.readJsonSync(COMMIT_FILE)] inside its [try]: [cachedData] stays
    [{}] when the read throws. *)
Definition readCache : json * trace :=
  match cache_file W with
  | Some v => (v, [ReadCache])
  | None =>
      (JObj [], [ReadCache; Console Warn "Could not read commit file, assuming first run."])
  end.

Definition downloadFile : string -> trace := downloadFile_at W cfg Debug.

(** One task of [items.map(async (item) => ...)], [rec] being the recursive
    call: the traces the task can leave. *)
Definition task (rec : string -> trace -> Prop) (folderPath : string) (it : item)
    (tr : trace) : Prop :=
  let fp := fullPath folderPath it in
  if ignoring cfg it fp then tr = [ignoring_line fp]
  else if (type it =? "blob")%string then tr = downloadFile fp
  else if (type it =? "tree")%string then rec fp tr
  else tr = [].

(** [downloadFolder(folderPath)]: after the listing, the tasks of the
    children run concurrently and [Promise.all] waits for all of them; the
    events of the tasks interleave in any order.  [fuel] bounds the depth
    of the recursion. *)
Fixpoint downloadFolder (fuel : nat) (folderPath : string) (tr : trace) : Prop :=
  match fuel with
  | O => False
  | S n =>
      exists trs body,
        Forall2 (task (downloadFolder n) folderPath) (fst (fetchTree W folderPath)) trs
        /\ shuffle trs body
        /\ tr = snd (fetchTree W folderPath) ++ body
  end.

(** [for (const folder of folders) await downloadFolder(folder)] *)
Fixpoint downloadFolders (folders : list string) (tr : trace) : Prop :=
  match folders with
  | [] => tr = []
  | folder :: rest =>
      exists t t',
        (exists fuel, downloadFolder fuel folder t)
        /\ downloadFolders rest t' /\ tr = t ++ t'
  end.

Inductive status := Fatal | Skipped | Completed | Rejected.

(** How a run ended, what it did, and the cache file it leaves. *)
Record outcome := {
  out_status : status;
  out_trace : trace;
  out_cache : option json
}.

(** [!latestCommitHash] *)
Definition unresolved (latestCommitHash : option string) : bool :=
  match latestCommitHash with
  | None => true
  | Some id => negb (truthy id)
  end.

Definition run_start : trace := opening cfg ++ snd fetchLatestCommitHash.
Definition run_cache : trace := run_start ++ [MkdirpCache] ++ snd readCache.

(** [main()], followed by [.catch(console.error)] on the rejected path.
    The cache directory is taken to be writable: [fs.mkdirp] and
    [fs.writeJsonSync] succeed. *)
Inductive main : outcome -> Prop :=
| main_fatal :
    unresolved (fst fetchLatestCommitHash) = true ->
    main {| out_status := Fatal;
            out_trace := run_start
              ++ [Console Error "Could not retrieve latest commit hash. Exiting."];
            out_cache := cache_file W |}
| main_rejected : forall latest,
    fst fetchLatestCommitHash = Some latest ->
    truthy latest = true ->
    skip_check latest (generateArgsHash cfg) (fst readCache) = None ->
    main {| out_status := Rejected;
            out_trace := run_cache
              ++ [ConsoleThrown Error "TypeError"];
            out_cache := cache_file W |}
| main_skip : forall latest,
    fst fetchLatestCommitHash = Some latest ->
    truthy latest = true ->
    skip_check latest (generateArgsHash cfg) (fst readCache) = Some true ->
    main {| out_status := Skipped;
            out_trace := run_cache
              ++ [Console Log "No changes detected in the repository. Skipping download"];
            out_cache := cache_file W |}
| main_complete : forall latest tr,
    fst fetchLatestCommitHash = Some latest ->
    truthy latest = true ->
    skip_check latest (generateArgsHash cfg) (fst readCache) = Some false ->
    downloadFolders FOLDERS_TO_DOWNLOAD tr ->
    main {| out_status := Completed;
            out_trace := run_cache ++ tr
              ++ [WriteCache (cache_record latest (generateArgsHash cfg));
                  Console Log "Download complete."];
            out_cache := Some (cache_record latest (generateArgsHash cfg)) |}.

(** The status of the process when the script ends: the rejection of
    [main] is handled by [.catch(console.error)], and nothing assigns
    [process.exitCode] or calls [process.exit]. *)
Definition exit_code (s : status) : Z :=
  match s with
  | Fatal => 0
  | Skipped => 0
  | Completed => 0
  | Rejected => 0
  end.
End Run.
End Cli.

(* ================================================================== *)
(** * The folders and files a traversal reaches *)

Section Reach.
Variable W : world.
Variable cfg : config.

(** The traversal of folder [p] recurses into its entry [it]: a directory
    of the listing that the filter lets through. *)
Definition descends (p : string) (it : item) : Prop :=
  In it (fst (fetchTree W p))
  /\ ignoring cfg it (fullPath p it) = false
  /\ type it = "tree".

(** [visits p q]: [downloadFolder(p)] leads to the call [downloadFolder(q)]. *)
Inductive visits : string -> string -> Prop :=
| visits_self : forall p, visits p p
| visits_child : forall p it q,
    descends p it -> visits (fullPath p it) q -> visits p q.

(** What the call for folder [p] does by itself, the recursive calls left
    out: the listing, the lines for ignored folders, the file downloads. *)
Definition own_task (lvl : level) (p : string) (it : item) : trace :=
  let fp := fullPath p it in
  if ignoring cfg it fp then [ignoring_line fp]
  else if (type it =? "blob")%string then downloadFile_at W cfg lvl fp
  else [].

Definition own_events (lvl : level) (p : string) : trace :=
  snd (fetchTree W p) ++ flat_map (own_task lvl p) (fst (fetchTree W p)).

(** The directories below [p] that the traversal enters are nested less
    than [n] deep. *)
Fixpoint bounded (n : nat) (p : string) : Prop :=
  match n with
  | O => False
  | S m => forall it, descends p it -> bounded m (fullPath p it)
  end.
End Reach.

(* ================================================================== *)
(** * A small repository, for the examples *)

Definition entry (n t : string) : item := {| name := n; type := t |}.

(** [proto] holds two files, a directory, a directory whose listing fails and
    a submodule; the fetch of [proto/bad.proto] fails. *)
Definition sample_tree (p : string) : response (list item) :=
  if (p =? "proto")%string then
    Ok [entry "a.proto" "blob"; entry "sub" "tree"; entry "broken" "tree";
        entry "bad.proto" "blob"; entry "vendored" "commit"]
  else if (p =? "proto/sub")%string then Ok [entry "b.proto" "blob"]
  else if (p =? "build")%string then Ok [entry "out.bin" "blob"]
  else Failed "404 Tree Not Found".

Definition sample_raw (f : string) : response (list byte) :=
  if (f =? "proto/a.proto")%string then Ok [x61]
  else if (f =? "proto/sub/b.proto")%string then Ok [x62]
  else if (f =? "build/out.bin")%string then Ok [x00; xff]
  else Failed "socket hang up".

Definition sample_world : world :=
  {| cwd := "/home/u";
     commit_resp := Ok "abc";
     tree_resp := sample_tree;
     raw_resp := sample_raw;
     output_resp := fun _ => None;
     cache_file := None |}.

Definition sample_cfg : config :=
  {| GITLAB_HOST := "https://gitlab.com";
     TOKEN := "glpat";
     PROJECT_ID := "123456";
     BRANCH := "master";
     DOWNLOAD_DIR := "downloads";
     INCLUDE_ONLY := [] |}.

(** The same surroundings with another cache file. *)
Definition with_cache (W : world) (file : option json) : world :=
  {| cwd := cwd W;
     commit_resp := commit_resp W;
     tree_resp := tree_resp W;
     raw_resp := raw_resp W;
     output_resp := output_resp W;
     cache_file := file |}.

(** The commit lookup fails. *)
Definition offline_world : world :=
  {| cwd := "/home/u";
     commit_resp := Failed "connect ECONNREFUSED";
     tree_resp := sample_tree;
     raw_resp := sample_raw;
     output_resp := fun _ => None;
     cache_file := None |}.

(** The run of [main] when the commit lookup fails. *)
Definition offline_outcome : Cli.outcome :=
  {| Cli.out_status := Cli.Fatal;
     Cli.out_trace :=
       Cli.run_start offline_world sample_cfg
       ++ [Console Error "Could not retrieve latest commit hash. Exiting."];
     Cli.out_cache := cache_file offline_world |}.

(** The state left by a run at commit [abc] with the sample configuration. *)
Definition sample_state : Cli.RunState :=
  {| Cli.commit := "abc"; Cli.argsHash := Cli.generateArgsHash sample_cfg |}.

(** The events of the two traversals of a run on the sample, in the order of
    the listings. *)
Definition sample_pass : trace :=
  match walk_all sample_world sample_cfg Debug 3 FOLDERS_TO_DOWNLOAD with
  | Some tr => tr
  | None => []
  end.

Definition sample_outcome : Cli.outcome :=
  {| Cli.out_status := Cli.Completed;
     Cli.out_trace :=
       Cli.run_cache sample_world sample_cfg ++ sample_pass
       ++ [WriteCache (Cli.cache_record "abc" (Cli.generateArgsHash sample_cfg));
           Console Log "Download complete."];
     Cli.out_cache := Some (Cli.cache_record "abc" (Cli.generateArgsHash sample_cfg)) |}.

(** A run on [proto] in which the requests for the four children are sent
    before any of the answers is handled. *)
Definition overlapped_run : trace :=
  [GetTree "proto";
   GetRaw "proto/a.proto"; GetTree "proto/sub"; GetTree "proto/broken";
   GetRaw "proto/bad.proto";
   ConsoleWith Error "Failed to fetch tree for proto/broken:" "404 Tree Not Found";
   OutputFile "/home/u/downloads/proto/a.proto" [x61];
   GetRaw "proto/sub/b.proto";
   ConsoleWith Error "Failed to download proto/bad.proto:" "socket hang up";
   Console Debug "Downloaded: /home/u/downloads/proto/a.proto";
   OutputFile "/home/u/downloads/proto/sub/b.proto" [x62];
   Console Debug "Downloaded: /home/u/downloads/proto/sub/b.proto"].

(** An absolute destination directory. *)
Definition absolute_cfg : config :=
  {| GITLAB_HOST := "https://gitlab.com";
     TOKEN := "glpat";
     PROJECT_ID := "123456";
     BRANCH := "master";
     DOWNLOAD_DIR := "/tmp/out";
     INCLUDE_ONLY := [] |}.

(** Only the folders whose path contains [proto]. *)
Definition proto_cfg : config :=
  {| GITLAB_HOST := "https://gitlab.com";
     TOKEN := "glpat";
     PROJECT_ID := "123456";
     BRANCH := "master";
     DOWNLOAD_DIR := "downloads";
     INCLUDE_ONLY := ["proto"] |}.

(** The sample configuration with a project id of [n] digits. *)
Definition numbered_cfg (n : nat) : config :=
  {| GITLAB_HOST := "https://gitlab.com";
     TOKEN := "glpat";
     PROJECT_ID := string_of_list_ascii (repeat "1"%char n);
     BRANCH := "master";
     DOWNLOAD_DIR := "downloads";
     INCLUDE_ONLY := [] |}.

(** The strings of [n] lowercase hexadecimal digits. *)
Fixpoint hex_strings (n : nat) : list string :=
  match n with
  | O => [EmptyString]
  | S m => flat_map (fun c => map (String c) (hex_strings m)) hex_digits
  end.

(** The four fields that [generateArgsHash] reads. *)
Definition same_args (c1 c2 : config) : Prop :=
  PROJECT_ID c1 = PROJECT_ID c2
  /\ BRANCH c1 = BRANCH c2
  /\ INCLUDE_ONLY c1 = INCLUDE_ONLY c2
  /\ DOWNLOAD_DIR c1 = DOWNLOAD_DIR c2.

(** The sample configuration with another token. *)
Definition retokened_cfg : config :=
  {| GITLAB_HOST := "https://gitlab.com";
     TOKEN := "glpat-2";
     PROJECT_ID := "123456";
     BRANCH := "master";
     DOWNLOAD_DIR := "downloads";
     INCLUDE_ONLY := [] |}.

(* ================================================================== *)
(** * Worlds and outcomes for the examples on successive runs *)

(** The same surroundings with another answer to the commit lookup. *)
Definition with_commit (W : world) (resp : response string) : world :=
  {| cwd := cwd W;
     commit_resp := resp;
     tree_resp := tree_resp W;
     raw_resp := raw_resp W;
     output_resp := output_resp W;
     cache_file := cache_file W |}.

(** The sample after a completed run: the cache file holds its record. *)
Definition cached_world : world :=
  with_cache sample_world (Cli.out_cache sample_outcome).

(** The run of [main] on [cached_world]. *)
Definition skipped_outcome : Cli.outcome :=
  {| Cli.out_status := Cli.Skipped;
     Cli.out_trace :=
       Cli.run_cache cached_world retokened_cfg
       ++ [Console Log "No changes detected in the repository. Skipping download"];
     Cli.out_cache := cache_file cached_world |}.

(** The cache file holds [null]. *)
Definition null_world : world := with_cache sample_world (Some JNull).

Definition null_outcome : Cli.outcome :=
  {| Cli.out_status := Cli.Rejected;
     Cli.out_trace :=
       Cli.run_cache null_world sample_cfg
       ++ [ConsoleThrown Error "TypeError"];
     Cli.out_cache := cache_file null_world |}.

(** The branch has moved to commit [def] since the completed run. *)
Definition newer_world : world := with_commit cached_world (Ok "def").

Definition newer_outcome : Cli.outcome :=
  {| Cli.out_status := Cli.Completed;
     Cli.out_trace :=
       Cli.run_cache newer_world sample_cfg ++ sample_pass
       ++ [WriteCache (Cli.cache_record "def" (Cli.generateArgsHash sample_cfg));
           Console Log "Download complete."];
     Cli.out_cache := Some (Cli.cache_record "def" (Cli.generateArgsHash sample_cfg)) |}.

(** Every file write in [t] comes after a fetch request, in [seen] or
    earlier in [t], for a file whose local path is the one written and whose
    fetched bytes are the ones written. *)
Definition fetched_first (W : world) (cfg : config) (seen t : trace) : Prop :=
  forall a lp data b,
    t = a ++ OutputFile lp data :: b ->
    exists f, In (GetRaw f) (seen ++ a)
              /\ lp = localPath W cfg f /\ raw_resp W f = Ok data.

(** The sample configuration with [--includeOnly docs,] (a trailing comma). *)
Definition trailing_cfg : config :=
  {| GITLAB_HOST := "https://gitlab.com";
     TOKEN := "glpat";
     PROJECT_ID := "123456";
     BRANCH := "master";
     DOWNLOAD_DIR := "downloads";
     INCLUDE_ONLY := include_only_of (Some "docs,") |}.

(** The trace of the sequential program on the sample. *)
Definition sample_seq_trace : trace :=
  match Seq.main sample_world sample_cfg 3 with
  | Some tr => tr
  | None => []
  end.

(** An ordinary name, as git allows for an entry: not empty, not [.] or
    [..], and without [/]. *)
Fixpoint no_slash (s : string) : bool :=
  match s with
  | EmptyString => true
  | String c s' => negb (Ascii.eqb c "/") && no_slash s'
  end.

Definition plain (seg : string) : bool :=
  truthy seg && negb (seg =? ".")%string && negb (seg =? "..")%string && no_slash seg.

(** Only the folders whose path contains [sub]. *)
Definition sub_cfg : config :=
  {| GITLAB_HOST := "https://gitlab.com";
     TOKEN := "glpat";
     PROJECT_ID := "123456";
     BRANCH := "master";
     DOWNLOAD_DIR := "downloads";
     INCLUDE_ONLY := ["sub"] |}.

(* ================================================================== *)
(** * Facts on strings and on the filter *)

Lemma starts_with_app (s t : string) :
  starts_with s t = true <-> exists post, s = (t ++ post)%string.
Proof.
  revert s. induction t as [|c t IH]; intros s; simpl.
  - split; [intros _; now exists s | reflexivity].
  - destruct s as [|d s].
    + split; [discriminate | intros [post H]; discriminate].
    + rewrite andb_true_iff, Ascii.eqb_eq, IH. split.
      * intros [-> [post ->]]. now exists post.
      * intros [post H]. injection H as -> ->. split; [reflexivity | now exists post].
Qed.

Lemma includes_spec (s t : string) :
  includes s t = true <-> is_substring t s.
Proof.
  unfold is_substring. induction s as [|c s IH]; simpl.
  - destruct (starts_with EmptyString t) eqn:Hp.
    + split; [intros _|reflexivity].
      apply starts_with_app in Hp as [post Hp]. now exists EmptyString, post.
    + split; [discriminate|].
      intros (pre & post & H). destruct pre; simpl in H.
      * assert (starts_with EmptyString t = true) by (apply starts_with_app; now exists post).
        congruence.
      * discriminate.
  - destruct (starts_with (String c s) t) eqn:Hp.
    + split; [intros _|reflexivity].
      apply starts_with_app in Hp as [post Hp]. now exists EmptyString, post.
    + rewrite IH. split.
      * intros (pre & post & H). exists (String c pre), post. simpl. now rewrite H.
      * intros (pre & post & H). destruct pre as [|d pre]; simpl in H.
        -- assert (starts_with (String c s) t = true)
             by (apply starts_with_app; now exists post).
           congruence.
        -- injection H as _ H. now exists pre, post.
Qed.

Lemma append_assoc (a b c : string) :
  ((a ++ b) ++ c = a ++ (b ++ c))%string.
Proof. induction a; simpl; congruence. Qed.

Lemma is_substring_extend (t s suffix : string) :
  is_substring t s -> is_substring t (s ++ suffix).
Proof.
  intros (pre & post & ->). exists pre, (post ++ suffix)%string.
  now rewrite !append_assoc.
Qed.

(** Every child path extends the path of its folder. *)
Lemma fullPath_extends (folderPath : string) (it : item) :
  exists suffix, fullPath folderPath it = (folderPath ++ suffix)%string.
Proof.
  unfold fullPath. destruct folderPath; simpl.
  - now exists (name it).
  - now eexists.
Qed.

Lemma includes_fullPath (folderPath term : string) (it : item) :
  includes folderPath term = true ->
  includes (fullPath folderPath it) term = true.
Proof.
  rewrite !includes_spec. intros H.
  destruct (fullPath_extends folderPath it) as [suffix ->].
  now apply is_substring_extend.
Qed.

Lemma some_accepts_spec (cfg : config) (fp : string) :
  some_accepts cfg fp = true <->
  exists term, In term (INCLUDE_ONLY cfg) /\ is_substring term fp.
Proof.
  unfold some_accepts. rewrite existsb_exists.
  split; intros (term & Hin & H); exists term; split; auto;
    now apply includes_spec.
Qed.

Lemma some_accepts_fullPath (cfg : config) (folderPath : string) (it : item) :
  some_accepts cfg folderPath = true ->
  some_accepts cfg (fullPath folderPath it) = true.
Proof.
  unfold some_accepts. rewrite !existsb_exists.
  intros (term & Hin & H). exists term. split; auto.
  now apply includes_fullPath.
Qed.

Lemma split_on_nonempty (sep : ascii) (s : string) : split_on sep s <> [].
Proof.
  induction s as [|c s IH]; simpl; [discriminate|].
  destruct (Ascii.eqb c sep); [discriminate|].
  destruct (split_on sep s); [contradiction | discriminate].
Qed.

(** The include list is empty exactly when [--includeOnly] is absent or
    empty. *)
Lemma include_only_of_nil (includeOnly : option string) :
  include_only_of includeOnly = [] <->
  (includeOnly = None \/ includeOnly = Some EmptyString).
Proof.
  destruct includeOnly as [[|c s]|]; cbn [include_only_of truthy]; split; auto.
  - intros H. now apply split_on_nonempty in H.
  - intros [H|H]; discriminate.
Qed.

(* ================================================================== *)
(** * The include filter *)

(** C2. An entry is let through by the filter exactly when it is not a
    directory, or the include list is empty, or some term of the list is a
    substring of its full path: the filter never rejects a file entry, lets
    every directory through when the list is empty, and otherwise lets a
    directory through iff one term occurs somewhere in its path. *)
Theorem filter_descends_iff (cfg : config) (it : item) (fp : string) :
  ignoring cfg it fp = false <->
  (type it <> "tree"
   \/ INCLUDE_ONLY cfg = []
   \/ exists term, In term (INCLUDE_ONLY cfg) /\ is_substring term fp).
Proof.
  unfold ignoring. rewrite !andb_false_iff, negb_false_iff, some_accepts_spec.
  rewrite Nat.ltb_ge, String.eqb_neq. split.
  - intros [[H|H]|H]; auto.
    right; left. destruct (INCLUDE_ONLY cfg); simpl in H; [reflexivity | lia].
  - intros [H|[H|H]]; auto.
    left; left. rewrite H. simpl. lia.
Qed.

(* ================================================================== *)
(** * The skip check *)

Lemma strict_eq_true (s : string) (v : option json) :
  strict_eq s v = true <-> v = Some (JStr s).
Proof.
  destruct v as [[| | |t| |]|]; simpl; try (split; [discriminate | congruence]).
  rewrite String.eqb_eq. split; [now intros -> | congruence].
Qed.

(** The check on any content of the cache file: it succeeds exactly on an
    object whose [commit] and [argsHash] are the two strings compared. *)
Lemma skip_check_true (latest hash : string) (cachedData : json) :
  Cli.skip_check latest hash cachedData = Some true <->
  (get_prop cachedData "commit" = Some (JStr latest)
   /\ get_prop cachedData "argsHash" = Some (JStr hash)).
Proof.
  unfold Cli.skip_check.
  destruct cachedData; simpl;
    try (split; [discriminate | intros [H _]; discriminate]).
  rewrite <- !strict_eq_true, <- andb_true_iff.
  split; [now intros [= ->] | now intros ->].
Qed.

(** C1. With the cache file of an earlier run, or none, the skip condition
    of [main] holds iff there is a prior state whose commit is the current
    commit and whose arguments hash is the current one; in every other case
    the condition is false (and the check does not throw). *)
Theorem skip_iff_prior_state_matches
    (W : world) (rev fp : string) (prior : option Cli.RunState)
    (Hfile : cache_file W = Cli.stored prior) :
  (Cli.skip_check rev fp (fst (Cli.readCache W)) = Some true <->
   exists st, prior = Some st /\ Cli.commit st = rev /\ Cli.argsHash st = fp)
  /\ (Cli.skip_check rev fp (fst (Cli.readCache W)) <> Some true ->
      Cli.skip_check rev fp (fst (Cli.readCache W)) = Some false).
Proof.
  unfold Cli.readCache. rewrite Hfile.
  destruct prior as [[c a]|]; simpl.
  - unfold Cli.skip_check; simpl. split.
    + destruct (String.eqb_spec rev c) as [->|Hc];
        destruct (String.eqb_spec fp a) as [->|Ha]; simpl; split;
        try discriminate; try (intros _; now eexists);
        intros (st & [= <-] & H1 & H2); simpl in *; congruence.
    + destruct (rev =? c)%string, (fp =? a)%string; simpl; congruence.
  - unfold Cli.skip_check; simpl. split; [split|reflexivity].
    + discriminate.
    + intros (st & H & _). discriminate.
Qed.

(* ================================================================== *)
(** * Interleavings *)

Lemma all_nil_concat {A : Type} (trs : list (list A)) :
  Forall (fun t => t = []) trs -> concat trs = [].
Proof. induction 1 as [|t trs -> _ IH]; simpl; auto. Qed.

Lemma shuffle_perm {A : Type} (trs : list (list A)) (tr : list A) :
  shuffle trs tr -> Permutation (concat trs) tr.
Proof.
  induction 1 as [trs H|before x t after tr _ IH].
  - now rewrite all_nil_concat.
  - rewrite concat_app in *. simpl in *.
    apply Permutation_sym, Permutation_cons_app, Permutation_sym, IH.
Qed.

Lemma shuffle_nil_l {A : Type} (trs : list (list A)) (tr : list A) :
  shuffle trs tr -> shuffle ([] :: trs) tr.
Proof.
  induction 1 as [trs H|before x t after tr _ IH].
  - constructor. now constructor.
  - apply (shuffle_next ([] :: before)). exact IH.
Qed.

Lemma shuffle_app_l {A : Type} (t : list A) (trs : list (list A)) (tr : list A) :
  shuffle trs tr -> shuffle (t :: trs) (t ++ tr).
Proof.
  intros H. induction t as [|x t IH]; simpl.
  - now apply shuffle_nil_l.
  - apply (shuffle_next [] x t trs). exact IH.
Qed.

(** Running the tasks one after the other is one of the interleavings. *)
Lemma shuffle_concat {A : Type} (trs : list (list A)) : shuffle trs (concat trs).
Proof.
  induction trs as [|t trs IH]; simpl.
  - constructor. constructor.
  - now apply shuffle_app_l.
Qed.

Lemma shuffle_In {A : Type} (trs : list (list A)) (tr : list A) (e : A) :
  shuffle trs tr -> (In e tr <-> exists t, In t trs /\ In e t).
Proof.
  intros H. apply shuffle_perm in H. rewrite <- in_concat. split.
  - apply Permutation_in. now apply Permutation_sym.
  - now apply Permutation_in.
Qed.

Lemma Forall2_In_l {A B : Type} (R : A -> B -> Prop) (l : list A) (l' : list B) (x : A) :
  Forall2 R l l' -> In x l -> exists y, In y l' /\ R x y.
Proof.
  induction 1 as [|a b l l' HR _ IH]; simpl; [contradiction|].
  intros [->|Hin].
  - exists b. auto.
  - destruct (IH Hin) as (y & Hy & Hxy). exists y. auto.
Qed.

Lemma Forall2_In_r {A B : Type} (R : A -> B -> Prop) (l : list A) (l' : list B) (y : B) :
  Forall2 R l l' -> In y l' -> exists x, In x l /\ R x y.
Proof.
  induction 1 as [|a b l l' HR _ IH]; simpl; [contradiction|].
  intros [->|Hin].
  - exists a. auto.
  - destruct (IH Hin) as (x & Hx & Hxy). exists x. auto.
Qed.

Lemma effects_app (t t' : trace) : effects (t ++ t') = effects t ++ effects t'.
Proof. apply filter_app. Qed.

Lemma effects_perm (t t' : trace) :
  Permutation t t' -> Permutation (effects t) (effects t').
Proof.
  unfold effects. induction 1 as [|e t t' _ IH|e e' t|t t' t'' _ IH1 _ IH2]; simpl.
  - constructor.
  - destruct (negb (is_console e)); [now constructor | exact IH].
  - destruct (negb (is_console e)), (negb (is_console e'));
      try apply Permutation_refl. apply perm_swap.
  - now apply Permutation_trans with (filter (fun e => negb (is_console e)) t').
Qed.

Lemma effects_In (e : event) (t : trace) :
  In e (effects t) <-> In e t /\ is_console e = false.
Proof. unfold effects. rewrite filter_In, negb_true_iff. reflexivity. Qed.

(* ================================================================== *)
(** * The events of a traversal *)

Section Traversal.
Variable W : world.
Variable cfg : config.

Lemma task_cases (rec : string -> trace -> Prop) (p : string) (it : item) (t : trace) :
  Cli.task W cfg rec p it t ->
  (t = own_task W cfg Debug p it /\ ~ descends W cfg p it)
  \/ (rec (fullPath p it) t /\ ignoring cfg it (fullPath p it) = false
      /\ type it = "tree").
Proof.
  unfold Cli.task, own_task, descends.
  destruct (ignoring cfg it (fullPath p it)) eqn:Hi.
  - intros ->. left. split; [reflexivity|]. intros (_ & H & _). discriminate.
  - destruct (String.eqb_spec (type it) "blob") as [Hb|Hb].
    + intros ->. left. split; [reflexivity|]. intros (_ & _ & H). congruence.
    + destruct (String.eqb_spec (type it) "tree") as [Ht|Ht].
      * intros H. right. auto.
      * intros ->. left. split; [reflexivity|]. intros (_ & _ & H). congruence.
Qed.

(** The events of a run of the parallel engine are those of the folders it
    visits, whatever the interleaving. *)
Lemma run_events (fuel : nat) : forall (p : string) (tr : trace),
  Cli.downloadFolder W cfg fuel p tr ->
  forall e, In e tr <->
            exists q, visits W cfg p q /\ In e (own_events W cfg Debug q).
Proof.
  induction fuel as [|n IH]; intros p tr; simpl; [contradiction|].
  intros (trs & body & HF & Hsh & ->) e.
  rewrite in_app_iff, (shuffle_In _ _ e Hsh). split.
  - intros [H|(t & Ht & He)].
    + exists p. split; [constructor|]. unfold own_events. apply in_or_app. now left.
    + destruct (Forall2_In_r _ _ _ _ HF Ht) as (it & Hit & Htask).
      destruct (task_cases _ _ _ _ Htask) as [[Heq Hnd]|(Hrec & Hi & Hty)].
      * rewrite Heq in He. exists p. split; [constructor|].
        unfold own_events. apply in_or_app. right.
        apply in_flat_map. exists it. auto.
      * destruct (proj1 (IH _ _ Hrec e) He) as (q & Hq & He').
        exists q. split; auto. apply visits_child with it; auto.
        repeat split; auto.
  - intros (q & Hq & He). destruct Hq as [p|p it q (Hit & Hi & Hty) Hq].
    + unfold own_events in He. apply in_app_or in He as [He|He]; [now left|].
      right. apply in_flat_map in He as (it & Hit & He).
      destruct (Forall2_In_l _ _ _ _ HF Hit) as (t & Ht & Htask).
      exists t. split; auto.
      destruct (task_cases _ _ _ _ Htask) as [[Heq _]|(Hrec & Hi & Hty)];
        [now rewrite Heq|].
      unfold own_task in He. rewrite Hi, Hty in He. simpl in He. contradiction.
    + right. destruct (Forall2_In_l _ _ _ _ HF Hit) as (t & Ht & Htask).
      exists t. split; auto.
      destruct (task_cases _ _ _ _ Htask) as [[_ Hnd]|(Hrec & _ & _)].
      * elim Hnd. repeat split; auto.
      * apply (IH _ _ Hrec). exists q. auto.
Qed.

Lemma effects_downloadFile (lvl lvl' : level) (f : string) :
  effects (downloadFile_at W cfg lvl f) = effects (downloadFile_at W cfg lvl' f).
Proof.
  unfold downloadFile_at.
  destruct (raw_resp W f); [destruct (output_resp W (localPath W cfg f))|];
    reflexivity.
Qed.

(** A walk in the order of the listings and a run of the parallel engine
    perform the same requests and the same writes, each as many times. *)
Lemma walk_effects_perm (lvl : level) (fuel : nat) :
  forall (fuel' : nat) (p : string) (ts tp : trace),
    walk W cfg lvl fuel p = Some ts ->
    Cli.downloadFolder W cfg fuel' p tp ->
    Permutation (effects ts) (effects tp).
Proof.
  induction fuel as [|n IH]; intros fuel' p ts tp; simpl; [discriminate|].
  destruct fuel' as [|n']; simpl; [contradiction|].
  destruct (loop W cfg lvl (walk W cfg lvl n) p (fst (fetchTree W p)))
    as [body|] eqn:Hl; [|discriminate].
  intros [= <-] (trs & body' & HF & Hsh & ->).
  rewrite !effects_app. apply Permutation_app_head.
  apply Permutation_trans with (effects (concat trs));
    [|apply effects_perm, shuffle_perm, Hsh].
  clear Hsh. revert body trs Hl HF.
  generalize (fst (fetchTree W p)) as items.
  induction items as [|it items IHi]; simpl; intros body trs Hl HF.
  - injection Hl as <-. inversion HF; subst. constructor.
  - destruct (visit W cfg lvl (walk W cfg lvl n) p it) as [t|] eqn:Hv; [|discriminate].
    destruct (loop W cfg lvl (walk W cfg lvl n) p items) as [t'|] eqn:Hl'; [|discriminate].
    injection Hl as <-. inversion HF as [|? t1 ? trs1 Htask HF1]; subst. simpl.
    rewrite !effects_app. apply Permutation_app; [|now apply IHi].
    unfold visit in Hv. unfold Cli.task in Htask.
    destruct (ignoring cfg it (fullPath p it)).
    { injection Hv as <-. subst t1. apply Permutation_refl. }
    destruct (type it =? "blob")%string.
    { injection Hv as <-. subst t1. unfold Cli.downloadFile.
      rewrite (effects_downloadFile lvl Debug). apply Permutation_refl. }
    destruct (type it =? "tree")%string.
    { now apply IH with n' (fullPath p it). }
    injection Hv as <-. subst t1. apply Permutation_refl.
Qed.

(** The walk in the order of the listings is a run of the parallel engine. *)
Lemma walk_is_run (fuel : nat) : forall (p : string) (t : trace),
  walk W cfg Debug fuel p = Some t -> Cli.downloadFolder W cfg fuel p t.
Proof.
  induction fuel as [|n IH]; intros p t; simpl; [discriminate|].
  destruct (loop W cfg Debug (walk W cfg Debug n) p (fst (fetchTree W p)))
    as [body|] eqn:Hl; [|discriminate].
  intros [= <-].
  assert (exists trs,
             Forall2 (Cli.task W cfg (Cli.downloadFolder W cfg n) p)
                     (fst (fetchTree W p)) trs
             /\ body = concat trs) as (trs & HF & ->).
  { revert body Hl. generalize (fst (fetchTree W p)) as items.
    induction items as [|it items IHi]; simpl; intros body Hl.
    - injection Hl as <-. exists []. split; constructor.
    - destruct (visit W cfg Debug (walk W cfg Debug n) p it) as [t|] eqn:Hv;
        [|discriminate].
      destruct (loop W cfg Debug (walk W cfg Debug n) p items) as [t'|];
        [|discriminate].
      injection Hl as <-. destruct (IHi _ eq_refl) as (trs & HF & ->).
      exists (t :: trs). split; [|reflexivity]. constructor; [|exact HF].
      unfold visit in Hv. unfold Cli.task, Cli.downloadFile.
      destruct (ignoring cfg it (fullPath p it)); [congruence|].
      destruct (type it =? "blob")%string; [congruence|].
      destruct (type it =? "tree")%string; [now apply IH | congruence]. }
  exists trs, (concat trs). split; [exact HF|].
  split; [apply shuffle_concat | reflexivity].
Qed.

(** Where the parallel engine returns, so does the walk. *)
Lemma run_has_walk (lvl : level) (fuel : nat) : forall (p : string) (tp : trace),
  Cli.downloadFolder W cfg fuel p tp -> exists ts, walk W cfg lvl fuel p = Some ts.
Proof.
  induction fuel as [|n IH]; intros p tp; simpl; [contradiction|].
  intros (trs & body & HF & _ & _).
  assert (exists b, loop W cfg lvl (walk W cfg lvl n) p (fst (fetchTree W p)) = Some b)
    as [b ->]; [|now eexists].
  revert trs HF. generalize (fst (fetchTree W p)) as items.
  induction items as [|it items IHi]; simpl; intros trs HF; [now eexists|].
  inversion HF as [|? t1 ? trs1 Htask HF1]; subst.
  destruct (IHi _ HF1) as [b ->].
  assert (exists t, visit W cfg lvl (walk W cfg lvl n) p it = Some t) as [t ->];
    [|now eexists].
  unfold visit. unfold Cli.task in Htask.
  destruct (ignoring cfg it (fullPath p it)); [now eexists|].
  destruct (type it =? "blob")%string; [now eexists|].
  destruct (type it =? "tree")%string; [now apply IH with t1 | now eexists].
Qed.

(** The walk returns on a tree of bounded depth. *)
Lemma bounded_walk (lvl : level) (n : nat) : forall p : string,
  bounded W cfg n p -> exists ts, walk W cfg lvl n p = Some ts.
Proof.
  induction n as [|m IH]; intros p; simpl; [contradiction|]. intros Hb.
  assert (forall items, incl items (fst (fetchTree W p)) ->
          exists b, loop W cfg lvl (walk W cfg lvl m) p items = Some b) as Hloop.
  { induction items as [|it items IHi]; intros Hincl; simpl; [now eexists|].
    destruct IHi as [b ->]; [intros x Hx; apply Hincl; now right|].
    assert (exists t, visit W cfg lvl (walk W cfg lvl m) p it = Some t) as [t ->];
      [|now eexists].
    unfold visit. destruct (ignoring cfg it (fullPath p it)) eqn:Hi; [now eexists|].
    destruct (String.eqb_spec (type it) "blob"); [now eexists|].
    destruct (String.eqb_spec (type it) "tree"); [|now eexists].
    apply IH, Hb. repeat split; auto. apply Hincl. now left. }
  destruct (Hloop _ (incl_refl _)) as [b ->]. now eexists.
Qed.

(** The parallel engine returns on a tree of bounded depth. *)
Lemma bounded_run (n : nat) (p : string) :
  bounded W cfg n p -> exists tr, Cli.downloadFolder W cfg n p tr.
Proof.
  intros Hb. destruct (bounded_walk Debug n p Hb) as [t Ht].
  exists t. now apply walk_is_run.
Qed.
End Traversal.

(* ================================================================== *)
(** * What the traversal visits and leaves behind *)

Lemma visits_trans (W : world) (cfg : config) (p q r : string) :
  visits W cfg p q -> visits W cfg q r -> visits W cfg p r.
Proof.
  induction 1 as [p|p it q Hd _ IH]; intros Hr; [exact Hr|].
  apply visits_child with it; auto.
Qed.

Lemma visits_step (W : world) (cfg : config) (p q : string) (it : item) :
  visits W cfg p q -> descends W cfg q it -> visits W cfg p (fullPath q it).
Proof.
  intros Hq Hd. apply visits_trans with q; [exact Hq|].
  apply visits_child with it; [exact Hd | constructor].
Qed.

(** Below a folder that matches the include list, every folder matches. *)
Lemma visits_accepted (W : world) (cfg : config) (p q : string) :
  visits W cfg p q -> some_accepts cfg p = true -> some_accepts cfg q = true.
Proof.
  induction 1 as [p|p it q _ _ IH]; intros Hp; [exact Hp|].
  apply IH. now apply some_accepts_fullPath.
Qed.

Lemma fetchTree_trace (W : world) (p : string) (e : event) :
  In e (snd (fetchTree W p)) ->
  e = GetTree p \/ exists detail,
      tree_resp W p = Failed detail
      /\ e = ConsoleWith Error ("Failed to fetch tree for " ++ p ++ ":") detail.
Proof.
  unfold fetchTree. destruct (tree_resp W p) as [items|detail]; simpl.
  - intros [<-|[]]. now left.
  - intros [<-|[<-|[]]]; [now left|]. right. now exists detail.
Qed.

Lemma downloadFile_trace (W : world) (cfg : config) (lvl : level) (f : string) (e : event) :
  In e (downloadFile_at W cfg lvl f) ->
  e = GetRaw f
  \/ (exists data, raw_resp W f = Ok data /\ output_resp W (localPath W cfg f) = None
                   /\ (e = OutputFile (localPath W cfg f) data
                       \/ e = Console lvl ("Downloaded: " ++ localPath W cfg f)))
  \/ (exists detail, e = failed_download f detail).
Proof.
  unfold downloadFile_at.
  destruct (raw_resp W f) as [data|detail];
    [destruct (output_resp W (localPath W cfg f)) as [detail|] eqn:Ho|]; simpl.
  - intros [<-|[<-|[]]]; [now left|]. right; right. now exists detail.
  - intros [<-|[<-|[<-|[]]]]; [now left| |]; right; left; exists data; auto.
  - intros [<-|[<-|[]]]; [now left|]. right; right. now exists detail.
Qed.

Lemma own_task_blob (W : world) (cfg : config) (lvl : level) (p : string) (it : item) :
  type it = "blob" ->
  own_task W cfg lvl p it = downloadFile_at W cfg lvl (fullPath p it).
Proof.
  intros Hb. unfold own_task, ignoring. rewrite Hb. simpl.
  now rewrite andb_false_r.
Qed.

Lemma own_events_traversal (W : world) (cfg : config) (lvl : level) (p : string) (e : event) :
  In e (own_events W cfg lvl p) -> is_traversal e = true.
Proof.
  unfold own_events. rewrite in_app_iff, in_flat_map. intros [H|(it & _ & H)].
  - apply fetchTree_trace in H as [->|(d & _ & ->)]; reflexivity.
  - unfold own_task in H. destruct (ignoring cfg it (fullPath p it)).
    + destruct H as [<-|[]]. reflexivity.
    + destruct (type it =? "blob")%string; [|contradiction].
      apply downloadFile_trace in H
        as [->|[(d & _ & _ & [->| ->])|(d & ->)]]; reflexivity.
Qed.

Lemma run_traversal (W : world) (cfg : config) (fuel : nat) (p : string) (tr : trace) (e : event) :
  Cli.downloadFolder W cfg fuel p tr -> In e tr -> is_traversal e = true.
Proof.
  intros Hrun He. apply (run_events W cfg fuel p tr Hrun) in He as (q & _ & He).
  now apply own_events_traversal in He.
Qed.

Lemma folders_traversal (W : world) (cfg : config) (folders : list string) :
  forall (tr : trace) (e : event),
    Cli.downloadFolders W cfg folders tr -> In e tr -> is_traversal e = true.
Proof.
  induction folders as [|f rest IH]; simpl; intros tr e.
  - intros ->. contradiction.
  - intros (t & t' & [fuel Hrun] & Hrest & ->) He.
    apply in_app_or in He as [He|He].
    + now apply (run_traversal W cfg fuel f t).
    + now apply (IH t').
Qed.

(** Every write of a run goes to [path.join(cwd, DOWNLOAD_DIR, fullPath)] for
    a file entry of a visited folder, with the bytes fetched for it. *)
Lemma outputs_are_joined (W : world) (cfg : config) (fuel : nat) (root : string)
    (tr : trace) (lp : string) (data : list byte) :
  Cli.downloadFolder W cfg fuel root tr ->
  In (OutputFile lp data) tr ->
  exists q it,
    visits W cfg root q /\ In it (fst (fetchTree W q)) /\ type it = "blob"
    /\ lp = path_join [cwd W; DOWNLOAD_DIR cfg; fullPath q it]
    /\ raw_resp W (fullPath q it) = Ok data.
Proof.
  intros Hrun He. apply (run_events W cfg fuel root tr Hrun) in He as (q & Hq & He).
  unfold own_events in He. rewrite in_app_iff, in_flat_map in He.
  destruct He as [He|(it & Hit & He)].
  - apply fetchTree_trace in He as [He|(d & _ & He)]; discriminate.
  - exists q, it. unfold own_task in He.
    destruct (ignoring cfg it (fullPath q it)); [destruct He as [He|[]]; discriminate|].
    destruct (String.eqb_spec (type it) "blob") as [Hb|Hb]; [|contradiction].
    apply downloadFile_trace in He
      as [He|[(d & Hr & _ & [He|He])|(d & He)]]; try discriminate.
    injection He as -> ->. auto.
Qed.

(* ================================================================== *)
(** * Monotonicity of the filter *)

(** C9. A term that occurs in the path of a folder occurs in the path of
    each of its children.  Hence, when the path of a folder contains a term
    of the include list, so does the path of every folder that its traversal
    visits, and no run of the parallel engine on it prints an "Ignoring
    folder" line (or any other [console.log] line). *)
Theorem matched_folder_never_ignores
    (W : world) (cfg : config) (fuel : nat) (p : string) (tr : trace)
    (Hmatch : some_accepts cfg p = true)
    (Hrun : Cli.downloadFolder W cfg fuel p tr) :
  (forall term it, includes p term = true -> includes (fullPath p it) term = true)
  /\ (forall q it, visits W cfg p q -> ignoring cfg it (fullPath q it) = false)
  /\ (forall fp, ~ In (ignoring_line fp) tr).
Proof.
  assert (Hall : forall q it, visits W cfg p q -> ignoring cfg it (fullPath q it) = false).
  { intros q it Hq. unfold ignoring.
    rewrite (some_accepts_fullPath cfg q it (visits_accepted W cfg p q Hq Hmatch)).
    apply andb_false_r. }
  split; [|split; [exact Hall|]].
  - intros term it. apply includes_fullPath.
  - intros fp He.
    apply (run_events W cfg fuel p tr Hrun) in He as (q & Hq & He).
    unfold own_events in He. rewrite in_app_iff, in_flat_map in He.
    destruct He as [He|(it & _ & He)].
    + apply fetchTree_trace in He as [He|(d & _ & He)]; discriminate.
    + unfold own_task in He. rewrite (Hall q it Hq) in He.
      destruct (type it =? "blob")%string; [|contradiction].
      apply downloadFile_trace in He
        as [He|[(d & _ & _ & [He|He])|(d & He)]]; discriminate.
Qed.

Lemma matched_folder_never_ignores_witness :
  some_accepts proto_cfg "proto" = true
  /\ Cli.downloadFolder sample_world proto_cfg 3 "proto"
       (match walk sample_world proto_cfg Debug 3 "proto" with
        | Some t => t
        | None => []
        end)
  /\ ignoring proto_cfg (entry "sub" "tree") (fullPath "proto" (entry "sub" "tree")) = false
  /\ ~ In (ignoring_line "proto/sub")
          (match walk sample_world proto_cfg Debug 3 "proto" with
           | Some t => t
           | None => []
           end).
Proof.
  assert (H : Cli.downloadFolder sample_world proto_cfg 3 "proto"
                (match walk sample_world proto_cfg Debug 3 "proto" with
                 | Some t => t
                 | None => []
                 end)) by (apply walk_is_run; reflexivity).
  destruct (matched_folder_never_ignores sample_world proto_cfg 3 "proto" _ eq_refl H)
    as (_ & Hsub & Hline).
  split; [reflexivity|]. split; [exact H|]. split.
  - apply (Hsub "proto"). constructor.
  - apply Hline.
Defined.

(* ================================================================== *)
(** * Failures are local *)



(* ================================================================== *)
(** * The parallel engine and the sequential one *)

Lemma walk_level (W : world) (cfg : config) (lvl lvl' : level) (fuel : nat) :
  forall (p : string) (ts : trace),
    walk W cfg lvl fuel p = Some ts -> exists ts', walk W cfg lvl' fuel p = Some ts'.
Proof.
  induction fuel as [|n IH]; intros p ts; simpl; [discriminate|].
  destruct (loop W cfg lvl (walk W cfg lvl n) p (fst (fetchTree W p)))
    as [body|] eqn:Hl; [|discriminate].
  intros _.
  assert (exists b, loop W cfg lvl' (walk W cfg lvl' n) p (fst (fetchTree W p)) = Some b)
    as [b ->]; [|now eexists].
  revert body Hl. generalize (fst (fetchTree W p)) as items.
  induction items as [|it items IHi]; simpl; intros body Hl; [now eexists|].
  destruct (visit W cfg lvl (walk W cfg lvl n) p it) as [t|] eqn:Hv; [|discriminate].
  destruct (loop W cfg lvl (walk W cfg lvl n) p items) as [t'|]; [|discriminate].
  destruct (IHi _ eq_refl) as [b ->].
  assert (exists u, visit W cfg lvl' (walk W cfg lvl' n) p it = Some u) as [u ->];
    [|now eexists].
  unfold visit in *. destruct (ignoring cfg it (fullPath p it)); [now eexists|].
  destruct (type it =? "blob")%string; [now eexists|].
  destruct (type it =? "tree")%string; [now apply IH with t | now eexists].
Qed.

(** C10. On the same world and configuration, the sequential
    [downloadFolder] returns within a depth iff the parallel one has a run
    within it; and whenever both return, in whatever order the parallel tasks
    interleave, they issue the same listings and fetches and perform the same
    writes, each as many times: the same files are written with the same
    bytes. *)
Theorem parallel_matches_sequential (W : world) (cfg : config) (root : string) :
  (forall fuel,
      (exists ts, Seq.downloadFolder W cfg fuel root = Some ts)
      <-> (exists tp, Cli.downloadFolder W cfg fuel root tp))
  /\ (forall fuel fuel' ts tp,
         Seq.downloadFolder W cfg fuel root = Some ts ->
         Cli.downloadFolder W cfg fuel' root tp ->
         Permutation (effects ts) (effects tp)
         /\ forall lp data, In (OutputFile lp data) ts <-> In (OutputFile lp data) tp).
Proof.
  unfold Seq.downloadFolder. split.
  - intros fuel. split.
    + intros [ts Hs]. destruct (walk_level W cfg Log Debug fuel root ts Hs) as [t Ht].
      exists t. now apply walk_is_run.
    + intros [tp Hp]. exact (run_has_walk W cfg Log fuel root tp Hp).
  - intros fuel fuel' ts tp Hs Hp.
    pose proof (walk_effects_perm W cfg Log fuel fuel' root ts tp Hs Hp) as Hperm.
    split; [exact Hperm|]. intros lp data.
    assert (Hin : forall t, In (OutputFile lp data) t <-> In (OutputFile lp data) (effects t)).
    { intros t. rewrite effects_In. simpl. tauto. }
    rewrite (Hin ts), (Hin tp). split; apply Permutation_in; auto.
    now apply Permutation_sym.
Qed.

Lemma parallel_matches_sequential_example :
  exists ts, Seq.downloadFolder sample_world sample_cfg 3 "proto" = Some ts
             /\ In (OutputFile "/home/u/downloads/proto/sub/b.proto" [x62]) ts.
Proof. eexists. split; [reflexivity|]. simpl. auto 10. Qed.

Ltac shuffle_pick :=
  first [ apply (shuffle_next [])
        | apply (shuffle_next [_])
        | apply (shuffle_next [_; _])
        | apply (shuffle_next [_; _; _])
        | apply (shuffle_next [_; _; _; _]) ];
  cbn [app].

(** The parallel engine has runs that no sequential walk produces. *)
Example overlapped_run_is_run :
  Cli.downloadFolder sample_world sample_cfg 2 "proto" overlapped_run
  /\ walk sample_world sample_cfg Debug 2 "proto" <> Some overlapped_run.
Proof.
  split; [|discriminate].
  exists [ [GetRaw "proto/a.proto";
            OutputFile "/home/u/downloads/proto/a.proto" [x61];
            Console Debug "Downloaded: /home/u/downloads/proto/a.proto"];
           [GetTree "proto/sub"; GetRaw "proto/sub/b.proto";
            OutputFile "/home/u/downloads/proto/sub/b.proto" [x62];
            Console Debug "Downloaded: /home/u/downloads/proto/sub/b.proto"];
           [GetTree "proto/broken";
            ConsoleWith Error "Failed to fetch tree for proto/broken:" "404 Tree Not Found"];
           [GetRaw "proto/bad.proto";
            ConsoleWith Error "Failed to download proto/bad.proto:" "socket hang up"];
           [] ], (tl overlapped_run).
  split; [|split; [|reflexivity]].
  - repeat constructor; try reflexivity; apply walk_is_run; reflexivity.
  - unfold overlapped_run, tl. repeat shuffle_pick.
    constructor. repeat constructor.
Qed.

(* ================================================================== *)
(** * The run as a whole *)

Lemma run_start_events (W : world) (cfg : config) (e : event) :
  In e (Cli.run_start W cfg) -> is_console e = true \/ e = GetCommit.
Proof.
  unfold Cli.run_start, opening, Cli.fetchLatestCommitHash. rewrite in_app_iff.
  intros [[<-|[<-|[]]]|H].
  - now left.
  - left. now destruct (0 <? List.length (INCLUDE_ONLY cfg))%nat.
  - destruct (commit_resp W); simpl in H.
    + destruct H as [<-|[]]. now right.
    + destruct H as [<-|[<-|[]]]; [now right | now left].
Qed.

Lemma run_cache_events (W : world) (cfg : config) (e : event) :
  In e (Cli.run_cache W cfg) ->
  is_console e = true \/ e = GetCommit \/ e = MkdirpCache \/ e = ReadCache.
Proof.
  unfold Cli.run_cache, Cli.readCache. rewrite !in_app_iff.
  intros [H|[[<-|[]]|H]].
  - apply run_start_events in H as [H|H]; auto.
  - auto.
  - destruct (cache_file W); simpl in H.
    + destruct H as [<-|[]]. auto.
    + destruct H as [<-|[<-|[]]]; auto.
Qed.

Lemma walk_all_is_run (W : world) (cfg : config) (fuel : nat) (folders : list string) :
  forall tr : trace,
    walk_all W cfg Debug fuel folders = Some tr -> Cli.downloadFolders W cfg folders tr.
Proof.
  induction folders as [|f rest IH]; simpl; intros tr.
  - now intros [= <-].
  - destruct (walk W cfg Debug fuel f) as [t|] eqn:Ht; [|discriminate].
    destruct (walk_all W cfg Debug fuel rest) as [t'|]; [|discriminate].
    intros [= <-]. exists t, t'. split; [|split; [now apply IH | reflexivity]].
    exists fuel. now apply walk_is_run.
Qed.


Lemma sample_outcome_is_run : Cli.main sample_world sample_cfg sample_outcome.
Proof.
  apply (Cli.main_complete sample_world sample_cfg "abc" sample_pass);
    try reflexivity.
  apply (walk_all_is_run sample_world sample_cfg 3). reflexivity.
Qed.


Lemma bounded_folders (W : world) (cfg : config) (n : nat) (folders : list string) :
  (forall f, In f folders -> bounded W cfg n f) ->
  exists tr, Cli.downloadFolders W cfg folders tr.
Proof.
  induction folders as [|f rest IH]; simpl; intros Hb.
  - now exists [].
  - destruct (bounded_run W cfg n f (Hb f (or_introl eq_refl))) as [t Ht].
    destruct IH as [t' Ht']; [intros g Hg; apply Hb; now right|].
    exists (t ++ t'), t, t'. split; [now exists n | split; [exact Ht' | reflexivity]].
Qed.

(** On a repository of bounded depth, [main] returns. *)
Lemma main_total (W : world) (cfg : config) (n : nat) :
  (forall f, In f FOLDERS_TO_DOWNLOAD -> bounded W cfg n f) ->
  exists o, Cli.main W cfg o.
Proof.
  intros Hb.
  destruct (Cli.unresolved (fst (Cli.fetchLatestCommitHash W))) eqn:Hun.
  - eexists. now apply Cli.main_fatal.
  - destruct (fst (Cli.fetchLatestCommitHash W)) as [latest|] eqn:Hl; [|discriminate].
    simpl in Hun. apply negb_false_iff in Hun.
    destruct (Cli.skip_check latest (Cli.generateArgsHash cfg) (fst (Cli.readCache W)))
      as [[|]|] eqn:Hs.
    + eexists. now apply (Cli.main_skip W cfg latest).
    + destruct (bounded_folders W cfg n _ Hb) as [tr Htr].
      eexists. now apply (Cli.main_complete W cfg latest tr).
    + eexists. now apply (Cli.main_rejected W cfg latest).
Qed.

(* ================================================================== *)
(** * The commit lookup fails *)

(** C5, as amended. When the commit lookup gives no usable id, the only run
    of [main] prints the error and returns: nothing is listed, fetched or
    written, the cache file is left as it was, and the process ends with
    status 0. *)
Theorem unresolved_revision_aborts
    (W : world) (cfg : config) (o : Cli.outcome)
    (Hun : Cli.unresolved (fst (Cli.fetchLatestCommitHash W)) = true)
    (Hrun : Cli.main W cfg o) :
  Cli.out_status o = Cli.Fatal
  /\ Cli.out_trace o
     = Cli.run_start W cfg
       ++ [Console Error "Could not retrieve latest commit hash. Exiting."]
  /\ (forall e, In e (Cli.out_trace o) -> is_console e = true \/ e = GetCommit)
  /\ Cli.out_cache o = cache_file W
  /\ Cli.exit_code (Cli.out_status o) = 0%Z.
Proof.
  assert (Hno : forall latest, fst (Cli.fetchLatestCommitHash W) = Some latest ->
                               truthy latest = true -> False).
  { intros latest Hl Ht. rewrite Hl in Hun. simpl in Hun. now rewrite Ht in Hun. }
  destruct Hrun as [_|latest Hl Ht _|latest Hl Ht _|latest tr Hl Ht _ _];
    try (exfalso; exact (Hno latest Hl Ht)).
  cbn [Cli.out_status Cli.out_trace Cli.out_cache].
  repeat split.
  intros e. rewrite in_app_iff. intros [H|[<-|[]]].
  - now apply run_start_events in H.
  - now left.
Qed.

Lemma unresolved_revision_aborts_witness :
  Cli.unresolved (fst (Cli.fetchLatestCommitHash offline_world)) = true
  /\ Cli.main offline_world sample_cfg offline_outcome
  /\ Cli.out_status offline_outcome = Cli.Fatal
  /\ Cli.out_cache offline_outcome = cache_file offline_world
  /\ Cli.exit_code (Cli.out_status offline_outcome) = 0%Z.
Proof.
  assert (Hrun : Cli.main offline_world sample_cfg offline_outcome)
    by (apply Cli.main_fatal; reflexivity).
  destruct (unresolved_revision_aborts offline_world sample_cfg offline_outcome
              eq_refl Hrun) as (Hs & _ & _ & Hc & He).
  split; [reflexivity|]. split; [exact Hrun|]. split; [exact Hs|].
  split; [exact Hc | exact He].
Defined.

(** The run that aborts on a failed commit lookup ends with status 0, not
    with a non-zero one. *)
Lemma unresolved_revision_exits_zero :
  Cli.unresolved (fst (Cli.fetchLatestCommitHash offline_world)) = true
  /\ ~ (forall o, Cli.main offline_world sample_cfg o ->
                  Cli.exit_code (Cli.out_status o) <> 0%Z).
Proof.
  split; [reflexivity|]. intros H.
  apply (H _ (Cli.main_fatal offline_world sample_cfg eq_refl)). reflexivity.
Qed.

(* ================================================================== *)
(** * The run that has nothing to do *)

(** C8. When the commit found (a non-empty id: [main] takes an empty one
    as not found) is the commit of the cache file and the hash of the
    arguments is the one of the cache file, [main] has exactly one run: after
    the commit lookup and the reading of the cache file it prints the skip
    line and returns.  No listing and no file is requested, nothing is
    written. *)
Theorem unchanged_run_skips
    (W : world) (cfg : config) (rev : string)
    (Hrev : commit_resp W = Ok rev)
    (Hid : truthy rev = true)
    (Hcache : cache_file W
              = Cli.stored (Some {| Cli.commit := rev;
                                    Cli.argsHash := Cli.generateArgsHash cfg |})) :
  let skipped :=
    {| Cli.out_status := Cli.Skipped;
       Cli.out_trace :=
         opening cfg
         ++ [GetCommit; MkdirpCache; ReadCache;
             Console Log "No changes detected in the repository. Skipping download"];
       Cli.out_cache := cache_file W |} in
  Cli.main W cfg skipped
  /\ (forall o, Cli.main W cfg o -> o = skipped)
  /\ filter is_remote_fetch (Cli.out_trace skipped) = []
  /\ (forall e, In e (Cli.out_trace skipped) ->
                (forall lp data, e <> OutputFile lp data)
                /\ (forall v, e <> WriteCache v)).
Proof.
  assert (Hlatest : Cli.fetchLatestCommitHash W = (Some rev, [GetCommit])).
  { unfold Cli.fetchLatestCommitHash. now rewrite Hrev. }
  assert (Hread : Cli.readCache W
                  = (Cli.cache_record rev (Cli.generateArgsHash cfg), [ReadCache])).
  { unfold Cli.readCache. now rewrite Hcache. }
  assert (Hskip : Cli.skip_check rev (Cli.generateArgsHash cfg) (fst (Cli.readCache W))
                  = Some true).
  { rewrite Hread. apply skip_check_true. generalize (Cli.generateArgsHash cfg).
    intros h. split; reflexivity. }
  assert (Htrace : Cli.run_cache W cfg
                   ++ [Console Log "No changes detected in the repository. Skipping download"]
                   = opening cfg
                     ++ [GetCommit; MkdirpCache; ReadCache;
                         Console Log "No changes detected in the repository. Skipping download"]).
  { unfold Cli.run_cache, Cli.run_start. rewrite Hlatest, Hread. reflexivity. }
  intros skipped. split; [|split; [|split]].
  - unfold skipped. rewrite <- Htrace. apply (Cli.main_skip W cfg rev); auto.
    now rewrite Hlatest.
  - intros o Hrun.
    destruct Hrun as [Hun|latest Hl Ht Hs|latest Hl Ht Hs|latest tr Hl Ht Hs Htr].
    + rewrite Hlatest in Hun. simpl in Hun. now rewrite Hid in Hun.
    + rewrite Hlatest in Hl. injection Hl as <-. congruence.
    + unfold skipped. now rewrite Htrace.
    + rewrite Hlatest in Hl. injection Hl as <-. congruence.
  - unfold skipped, opening. simpl.
    now destruct (0 <? List.length (INCLUDE_ONLY cfg))%nat.
  - unfold skipped, opening. simpl. intros e H.
    destruct (0 <? List.length (INCLUDE_ONLY cfg))%nat;
      repeat (destruct H as [<-|H]; [split; discriminate|]); contradiction.
Qed.

Lemma unchanged_run_skips_witness :
  commit_resp (with_cache sample_world (Cli.stored (Some sample_state))) = Ok "abc"
  /\ truthy "abc" = true
  /\ Cli.main (with_cache sample_world (Cli.stored (Some sample_state))) sample_cfg
       {| Cli.out_status := Cli.Skipped;
          Cli.out_trace :=
            opening sample_cfg
            ++ [GetCommit; MkdirpCache; ReadCache;
                Console Log "No changes detected in the repository. Skipping download"];
          Cli.out_cache := Cli.stored (Some sample_state) |}.
Proof.
  split; [reflexivity|]. split; [reflexivity|].
  apply (unchanged_run_skips (with_cache sample_world (Cli.stored (Some sample_state)))
           sample_cfg "abc" eq_refl eq_refl eq_refl).
Defined.

Lemma skip_iff_prior_state_matches_witness :
  cache_file (with_cache sample_world (Cli.stored (Some sample_state)))
  = Cli.stored (Some sample_state)
  /\ Cli.skip_check "abc" (Cli.generateArgsHash sample_cfg)
       (fst (Cli.readCache (with_cache sample_world (Cli.stored (Some sample_state)))))
     = Some true.
Proof.
  split; [reflexivity|].
  apply (skip_iff_prior_state_matches
           (with_cache sample_world (Cli.stored (Some sample_state)))
           "abc" (Cli.generateArgsHash sample_cfg) (Some sample_state) eq_refl).
  exists sample_state. repeat split.
Defined.

(* ================================================================== *)
(** * The destination of the files *)

(** C6, at an absolute destination directory.  With [--dir /tmp/out] and
    the working directory [/home/u], the file [proto/a.proto] is written to
    [/home/u/tmp/out/proto/a.proto], whereas the destination directory joined
    with the path of the file is [/tmp/out/proto/a.proto]. *)
Theorem absolute_destination_is_rerooted :
  Cli.downloadFile sample_world absolute_cfg "proto/a.proto"
  = [GetRaw "proto/a.proto";
     OutputFile "/home/u/tmp/out/proto/a.proto" [x61];
     Console Debug "Downloaded: /home/u/tmp/out/proto/a.proto"]
  /\ path_join [DOWNLOAD_DIR absolute_cfg; "proto/a.proto"] = "/tmp/out/proto/a.proto"
  /\ fullPath "proto" (entry "a.proto" "blob") = "proto/a.proto".
Proof. repeat split. Qed.


(* ================================================================== *)
(** * The hash of the arguments *)

Example sha256_abc :
  SHA256.sha256_hex "abc"
  = "ba7816bf8f01cfea414140de5dae2223b00361a396177a9cb410ff61f20015ad".
Proof. vm_compute. reflexivity. Qed.

Example sha256_two_blocks :
  SHA256.sha256_hex "abcdbcdecdefdefgefghfghighijhijkijkljklmklmnlmnomnopnopq"
  = "248d6a61d20638b8e5c026930c3e6039a33ce45964ff2167f6ecedd419db06c1".
Proof. vm_compute. reflexivity. Qed.

Lemma unescape_escape_char (c : ascii) (rest : string) :
  unescape_char (escape_char c ++ rest) = Some (c, rest).
Proof.
  destruct c as [[|] [|] [|] [|] [|] [|] [|] [|]]; reflexivity.
Qed.

Lemma append_inv_head (s a b : string) : (s ++ a = s ++ b)%string -> a = b.
Proof. induction s as [|c s IH]; simpl; [auto|]. intros [= H]. auto. Qed.

(** An escaped string followed by a double quote can be read back. *)
Lemma escape_delimited (s1 : string) : forall s2 r1 r2 : string,
  (escape s1 ++ String dquote r1 = escape s2 ++ String dquote r2)%string ->
  s1 = s2 /\ r1 = r2.
Proof.
  induction s1 as [|c1 s1 IH]; intros [|c2 s2] r1 r2; simpl.
  - intros [= ->]. auto.
  - rewrite append_assoc. intros H. apply (f_equal unescape_char) in H.
    rewrite unescape_escape_char in H. discriminate.
  - rewrite append_assoc. intros H. apply (f_equal unescape_char) in H.
    rewrite unescape_escape_char in H. discriminate.
  - rewrite !append_assoc. intros H. apply (f_equal unescape_char) in H.
    rewrite !unescape_escape_char in H. injection H as -> H.
    destruct (IH _ _ _ H) as [-> ->]. auto.
Qed.

Lemma quote_app (s r : string) :
  (quote s ++ r = String dquote (escape s ++ String dquote r))%string.
Proof. unfold quote. simpl. now rewrite append_assoc. Qed.

Lemma quote_delimited (s1 s2 r1 r2 : string) :
  (quote s1 ++ r1 = quote s2 ++ r2)%string -> s1 = s2 /\ r1 = r2.
Proof.
  rewrite !quote_app. intros [= H]. now apply escape_delimited.
Qed.

Lemma join_quote_cons (x : string) (l : list string) (r : string) :
  (join "," (map quote (x :: l)) ++ String "]" r
   = quote x ++ match l with
                | [] => String "]" r
                | _ :: _ => String "," (join "," (map quote l) ++ String "]" r)
                end)%string.
Proof.
  destruct l as [|y l]; cbn [map join]; [reflexivity|].
  now rewrite append_assoc.
Qed.

Lemma join_delimited (l1 : list string) : forall (l2 : list string) (r1 r2 : string),
  (join "," (map quote l1) ++ String "]" r1
   = join "," (map quote l2) ++ String "]" r2)%string ->
  l1 = l2 /\ r1 = r2.
Proof.
  induction l1 as [|x l1 IH]; intros [|y l2] r1 r2.
  - simpl. intros [= ->]. auto.
  - rewrite join_quote_cons, quote_app. simpl. discriminate.
  - rewrite join_quote_cons, quote_app. simpl. discriminate.
  - rewrite !join_quote_cons. intros H.
    apply quote_delimited in H as [-> H].
    destruct l1 as [|x1 l1], l2 as [|y1 l2]; try discriminate.
    + injection H as ->. auto.
    + apply (append_inv_head ",") in H. destruct (IH _ _ _ H) as [-> ->]. auto.
Qed.

Lemma array_delimited (l1 l2 : list string) (r1 r2 : string) :
  (stringify_array l1 ++ r1 = stringify_array l2 ++ r2)%string ->
  l1 = l2 /\ r1 = r2.
Proof.
  unfold stringify_array. rewrite !append_assoc. intros H.
  apply append_inv_head in H. now apply join_delimited in H.
Qed.

(** [JSON.stringify] keeps the four fields apart: the string that is hashed
    determines them. *)
Lemma argsString_inj (c1 c2 : config) :
  Cli.argsString c1 = Cli.argsString c2 <-> same_args c1 c2.
Proof.
  unfold Cli.argsString, same_args. split.
  - intros H.
    do 3 apply append_inv_head in H. apply quote_delimited in H as [Hp H].
    do 3 apply append_inv_head in H. apply quote_delimited in H as [Hb H].
    do 3 apply append_inv_head in H. apply array_delimited in H as [Hi H].
    do 3 apply append_inv_head in H. apply quote_delimited in H as [Hd _].
    auto.
  - intros (-> & -> & -> & ->). reflexivity.
Qed.

(* ------------------------------------------------------------------ *)
(** ** The digests are finitely many *)

Lemma hex_digit_in (n : nat) : In (hex_digit n) hex_digits.
Proof.
  unfold hex_digit. destruct (Nat.lt_ge_cases n (List.length hex_digits)) as [H|H].
  - now apply nth_In.
  - rewrite nth_overflow by exact H. simpl. auto.
Qed.

Lemma string_length_app (a b : string) :
  String.length (a ++ b) = String.length a + String.length b.
Proof. induction a; simpl; auto. Qed.

Lemma string_chars_app (a b : string) :
  list_ascii_of_string (a ++ b) = list_ascii_of_string a ++ list_ascii_of_string b.
Proof. induction a; simpl; congruence. Qed.

Lemma string_of_list_length (l : list ascii) :
  String.length (string_of_list_ascii l) = List.length l.
Proof. induction l; simpl; auto. Qed.

Lemma hex_strings_complete (s : string) :
  Forall (fun c => In c hex_digits) (list_ascii_of_string s) ->
  In s (hex_strings (String.length s)).
Proof.
  induction s as [|c s IH]; cbn [hex_strings String.length list_ascii_of_string].
  - intros _. now left.
  - intros H. inversion H as [|? ? Hc Hs]; subst.
    apply in_flat_map. exists c. split; [exact Hc|]. apply in_map. auto.
Qed.

Lemma hex32_chars (x : Z) :
  Forall (fun c => In c hex_digits) (list_ascii_of_string (SHA256.hex32 x)).
Proof.
  unfold SHA256.hex32. rewrite list_ascii_of_string_of_list_ascii.
  apply Forall_forall. intros c Hc. apply in_map_iff in Hc as (i & <- & _).
  apply hex_digit_in.
Qed.

Lemma hex32_length (x : Z) : String.length (SHA256.hex32 x) = 8.
Proof.
  unfold SHA256.hex32. now rewrite string_of_list_length, length_map, length_rev, length_seq.
Qed.

(** A digest is one of the strings of 64 hexadecimal digits. *)
Lemma sha256_hex_in (s : string) : In (SHA256.sha256_hex s) (hex_strings 64).
Proof.
  unfold SHA256.sha256_hex.
  destruct (SHA256.digest (SHA256.bytes_of_string s))
    as [[[[[[[h0 h1] h2] h3] h4] h5] h6] h7].
  unfold SHA256.hex.
  assert (Hlen : String.length
                   (SHA256.hex32 h0 ++ SHA256.hex32 h1 ++ SHA256.hex32 h2
                    ++ SHA256.hex32 h3 ++ SHA256.hex32 h4 ++ SHA256.hex32 h5
                    ++ SHA256.hex32 h6 ++ SHA256.hex32 h7) = 64).
  { now rewrite !string_length_app, !hex32_length. }
  rewrite <- Hlen. apply hex_strings_complete.
  rewrite !string_chars_app. repeat (apply Forall_app; split); apply hex32_chars.
Qed.

Lemma NoDup_map_injective {A B : Type} (f : A -> B) (l : list A) :
  (forall x y, f x = f y -> x = y) -> NoDup l -> NoDup (map f l).
Proof.
  intros Hf. induction 1 as [|x l Hx _ IH]; simpl; constructor; auto.
  intros H. apply in_map_iff in H as (y & Hy & Hin).
  apply Hf in Hy. now subst.
Qed.

(** No function from the natural numbers into a finite list is injective. *)
Lemma pigeonhole {B : Type} (f : nat -> B) (l : list B) :
  (forall n, In (f n) l) -> ~ (forall i j, f i = f j -> i = j).
Proof.
  intros Hin Hinj.
  assert (Hnd : NoDup (map f (seq 0 (S (List.length l)))))
    by (apply NoDup_map_injective; [exact Hinj | apply seq_NoDup]).
  assert (Hincl : incl (map f (seq 0 (S (List.length l)))) l).
  { intros x Hx. apply in_map_iff in Hx as (n & <- & _). apply Hin. }
  pose proof (NoDup_incl_length Hnd Hincl) as Hle.
  rewrite length_map, length_seq in Hle. lia.
Qed.

Lemma numbered_cfg_project (i j : nat) :
  PROJECT_ID (numbered_cfg i) = PROJECT_ID (numbered_cfg j) -> i = j.
Proof.
  cbn [PROJECT_ID numbered_cfg]. intros H. apply (f_equal String.length) in H.
  now rewrite !string_of_list_length, !repeat_length in H.
Qed.

(** The hash itself cannot tell all configurations apart: the
    configurations [numbered_cfg n] are infinitely many and differ in their
    project id only, the digests are finitely many.  The argument is by
    counting and shows no two such configurations; how hard they are to
    find is the collision resistance of SHA-256, which is not a statement
    on these definitions. *)
Lemma fingerprint_collides :
  ~ (forall c1 c2 : config,
        PROJECT_ID c1 <> PROJECT_ID c2 ->
        BRANCH c1 = BRANCH c2 ->
        INCLUDE_ONLY c1 = INCLUDE_ONLY c2 ->
        DOWNLOAD_DIR c1 = DOWNLOAD_DIR c2 ->
        Cli.generateArgsHash c1 <> Cli.generateArgsHash c2).
Proof.
  intros Hall.
  apply (pigeonhole (fun n => Cli.generateArgsHash (numbered_cfg n)) (hex_strings 64)).
  - intros n. apply sha256_hex_in.
  - intros i j Heq. destruct (Nat.eq_dec i j) as [Hij|Hij]; [exact Hij|].
    exfalso. apply (Hall (numbered_cfg i) (numbered_cfg j)); try reflexivity; auto.
    intros H. apply Hij. now apply numbered_cfg_project.
Qed.

(** X19. The string that [generateArgsHash] hashes determines the four
    arguments it is built from, and nothing else: two configurations give
    the same string exactly when they agree on project id, branch, include
    list and destination, and then they have the same hash, whatever their
    host and token are. *)
Theorem hashed_string_determines_arguments (c1 c2 : config) :
  (Cli.argsString c1 = Cli.argsString c2 <-> same_args c1 c2)
  /\ (same_args c1 c2 -> Cli.generateArgsHash c1 = Cli.generateArgsHash c2).
Proof.
  split; [apply argsString_inj|].
  intros H. apply argsString_inj in H. unfold Cli.generateArgsHash. now rewrite H.
Qed.

Lemma hashed_string_determines_arguments_witness :
  same_args sample_cfg retokened_cfg
  /\ Cli.argsString sample_cfg = Cli.argsString retokened_cfg
  /\ Cli.generateArgsHash sample_cfg = Cli.generateArgsHash retokened_cfg
  /\ Cli.argsString sample_cfg <> Cli.argsString proto_cfg.
Proof.
  assert (H : same_args sample_cfg retokened_cfg) by (repeat split).
  split; [exact H|]. split; [|split].
  - now apply (hashed_string_determines_arguments sample_cfg retokened_cfg).
  - now apply (hashed_string_determines_arguments sample_cfg retokened_cfg).
  - intros He. apply (hashed_string_determines_arguments sample_cfg proto_cfg) in He.
    destruct He as (_ & _ & Hi & _). discriminate Hi.
Defined.

Example generateArgsHash_sample :
  Cli.generateArgsHash sample_cfg
  = "76db1ee4499966511df98b6ad989442046e83a7e5999016e49673c4e9e42d111".
Proof. vm_compute. reflexivity. Qed.

(* ================================================================== *)
(** * Successive runs *)

Lemma fetchLatest_resolved (W : world) (latest : string) :
  fst (Cli.fetchLatestCommitHash W) = Some latest <-> commit_resp W = Ok latest.
Proof.
  unfold Cli.fetchLatestCommitHash. destruct (commit_resp W); simpl; split;
    congruence.
Qed.

Lemma skip_check_cache (W : world) (latest hash : string) :
  Cli.skip_check latest hash (fst (Cli.readCache W)) = Some true <->
  exists v, cache_file W = Some v
            /\ get_prop v "commit" = Some (JStr latest)
            /\ get_prop v "argsHash" = Some (JStr hash).
Proof.
  rewrite skip_check_true. unfold Cli.readCache.
  destruct (cache_file W) as [v|]; simpl.
  - split.
    + intros [H1 H2]. now exists v.
    + intros (v' & [= <-] & H1 & H2). auto.
  - split.
    + intros [H _]. discriminate.
    + intros (v & H & _). discriminate.
Qed.

Lemma cache_record_props (latest hash : string) :
  get_prop (Cli.cache_record latest hash) "commit" = Some (JStr latest)
  /\ get_prop (Cli.cache_record latest hash) "argsHash" = Some (JStr hash).
Proof. split; reflexivity. Qed.

Lemma same_args_hash (c1 c2 : config) :
  same_args c1 c2 -> Cli.generateArgsHash c1 = Cli.generateArgsHash c2.
Proof.
  intros H. apply argsString_inj in H. unfold Cli.generateArgsHash. now rewrite H.
Qed.

Lemma filter_none {A : Type} (f : A -> bool) (l : list A) :
  (forall x, In x l -> f x = false) -> filter f l = [].
Proof.
  induction l as [|a l IH]; simpl; intros H; [reflexivity|].
  rewrite (H a (or_introl eq_refl)). apply IH. intros x Hx. apply H. now right.
Qed.

Lemma filter_all {A : Type} (f : A -> bool) (l : list A) :
  (forall x, In x l -> f x = true) -> filter f l = l.
Proof.
  induction l as [|a l IH]; simpl; intros H; [reflexivity|].
  rewrite (H a (or_introl eq_refl)). f_equal. apply IH. intros x Hx. apply H. now right.
Qed.

(** X1. A run of [main] ends by the skip exactly when the commit lookup
    gave a non-empty id and the cache file holds a JSON object whose
    [commit] is that id, as a string, and whose [argsHash] is the hash of the
    current arguments, as a string.  Any other content of the file (another
    type of value, a missing key, a number where a string is expected) does
    not skip. *)
Theorem run_skips_iff (W : world) (cfg : config) (o : Cli.outcome)
    (Hrun : Cli.main W cfg o) :
  Cli.out_status o = Cli.Skipped <->
  exists latest v,
    commit_resp W = Ok latest /\ truthy latest = true
    /\ cache_file W = Some v
    /\ get_prop v "commit" = Some (JStr latest)
    /\ get_prop v "argsHash" = Some (JStr (Cli.generateArgsHash cfg)).
Proof.
  assert (Hyes : forall latest,
             (exists latest' v,
                 commit_resp W = Ok latest' /\ truthy latest' = true
                 /\ cache_file W = Some v
                 /\ get_prop v "commit" = Some (JStr latest')
                 /\ get_prop v "argsHash" = Some (JStr (Cli.generateArgsHash cfg))) ->
             fst (Cli.fetchLatestCommitHash W) = Some latest ->
             Cli.skip_check latest (Cli.generateArgsHash cfg) (fst (Cli.readCache W))
             = Some true).
  { intros latest (l' & v & Hc & _ & Hv & H1 & H2) Hl.
    apply fetchLatest_resolved in Hl. rewrite Hl in Hc. injection Hc as <-.
    apply skip_check_cache. now exists v. }
  destruct Hrun as [Hun|latest Hl Ht Hs|latest Hl Ht Hs|latest tr Hl Ht Hs Htr];
    cbn [Cli.out_status]; split; try discriminate; try reflexivity.
  - intros (l' & v & Hc & Ht & _). apply fetchLatest_resolved in Hc.
    rewrite Hc in Hun. simpl in Hun. now rewrite Ht in Hun.
  - intros H. rewrite (Hyes latest H Hl) in Hs. discriminate.
  - intros _. apply skip_check_cache in Hs as (v & Hv & H1 & H2).
    exists latest, v. apply fetchLatest_resolved in Hl. auto.
  - intros H. rewrite (Hyes latest H Hl) in Hs. discriminate.
Qed.

Lemma skipped_outcome_is_run : Cli.main cached_world retokened_cfg skipped_outcome.
Proof.
  apply (Cli.main_skip cached_world retokened_cfg "abc");
    [reflexivity | reflexivity | vm_compute; reflexivity].
Qed.

Lemma run_skips_iff_witness :
  Cli.main cached_world retokened_cfg skipped_outcome
  /\ exists latest v,
       commit_resp cached_world = Ok latest /\ truthy latest = true
       /\ cache_file cached_world = Some v
       /\ get_prop v "commit" = Some (JStr latest)
       /\ get_prop v "argsHash" = Some (JStr (Cli.generateArgsHash retokened_cfg)).
Proof.
  split; [exact skipped_outcome_is_run|].
  apply (run_skips_iff cached_world retokened_cfg skipped_outcome
           skipped_outcome_is_run).
  reflexivity.
Defined.

(** X2. When the cache file holds the JSON value [null] and the commit
    lookup succeeds, every run of [main] throws at the destructuring of the
    cached data: nothing is listed, fetched or written, and the cache file
    still holds [null] afterwards, so that the next run ends the same way. *)
Theorem null_cache_rejects (W : world) (cfg : config) (o : Cli.outcome)
    (Hnull : cache_file W = Some JNull)
    (Hres : Cli.unresolved (fst (Cli.fetchLatestCommitHash W)) = false)
    (Hrun : Cli.main W cfg o) :
  Cli.out_status o = Cli.Rejected
  /\ Cli.out_cache o = Some JNull
  /\ (forall e, In e (Cli.out_trace o) ->
                is_console e = true \/ e = GetCommit \/ e = MkdirpCache \/ e = ReadCache).
Proof.
  assert (Hthrow : forall latest,
             Cli.skip_check latest (Cli.generateArgsHash cfg) (fst (Cli.readCache W))
             = None).
  { intros latest. unfold Cli.readCache. now rewrite Hnull. }
  destruct Hrun as [Hun|latest Hl Ht Hs|latest Hl Ht Hs|latest tr Hl Ht Hs Htr];
    cbn [Cli.out_status Cli.out_trace Cli.out_cache].
  - congruence.
  - split; [reflexivity|]. split; [exact Hnull|].
    intros e. rewrite in_app_iff. intros [H|[<-|[]]].
    + now apply run_cache_events in H.
    + now left.
  - rewrite Hthrow in Hs. discriminate.
  - rewrite Hthrow in Hs. discriminate.
Qed.

Lemma null_cache_rejects_witness :
  cache_file null_world = Some JNull
  /\ Cli.main null_world sample_cfg null_outcome
  /\ Cli.out_status null_outcome = Cli.Rejected
  /\ Cli.out_cache null_outcome = Some JNull.
Proof.
  assert (Hrun : Cli.main null_world sample_cfg null_outcome)
    by (apply (Cli.main_rejected null_world sample_cfg "abc"); reflexivity).
  destruct (null_cache_rejects null_world sample_cfg null_outcome eq_refl eq_refl Hrun)
    as (Hs & Hc & _).
  split; [reflexivity|]. split; [exact Hrun|]. split; [exact Hs | exact Hc].
Defined.

(** X3. After a run that completed, a run that finds the cache file it
    left, gets the same answer from the commit lookup and has the same
    project, branch, include list and destination (the host and the token may
    differ) ends by the skip: it requests no listing and no file, writes
    nothing and leaves the cache file as it is. *)
Theorem rerun_skips (W W' : world) (cfg cfg' : config) (o o' : Cli.outcome)
    (Hrun : Cli.main W cfg o)
    (Hdone : Cli.out_status o = Cli.Completed)
    (Hcommit : commit_resp W' = commit_resp W)
    (Hcache : cache_file W' = Cli.out_cache o)
    (Hargs : same_args cfg cfg')
    (Hrun' : Cli.main W' cfg' o') :
  Cli.out_status o' = Cli.Skipped
  /\ Cli.out_cache o' = Cli.out_cache o
  /\ filter is_remote_fetch (Cli.out_trace o') = []
  /\ (forall lp data, ~ In (OutputFile lp data) (Cli.out_trace o')).
Proof.
  destruct Hrun as [Hun|latest Hl Ht Hs|latest Hl Ht Hs|latest tr Hl Ht Hs Htr];
    try discriminate.
  cbn [Cli.out_cache] in *.
  apply fetchLatest_resolved in Hl. rewrite Hl in Hcommit.
  apply fetchLatest_resolved in Hcommit.
  assert (Hyes : Cli.skip_check latest (Cli.generateArgsHash cfg')
                   (fst (Cli.readCache W')) = Some true).
  { apply skip_check_cache. eexists. split; [exact Hcache|].
    rewrite <- (same_args_hash cfg cfg' Hargs). apply cache_record_props. }
  destruct Hrun' as [Hun|l' Hl' Ht' Hs'|l' Hl' Ht' Hs'|l' tr' Hl' Ht' Hs' Htr'];
    cbn [Cli.out_status Cli.out_trace Cli.out_cache].
  - rewrite Hcommit in Hun. simpl in Hun. now rewrite Ht in Hun.
  - rewrite Hcommit in Hl'. injection Hl' as <-. congruence.
  - split; [reflexivity|]. split; [exact Hcache|]. split.
    + apply filter_none. intros e. rewrite in_app_iff. intros [H|[<-|[]]].
      * apply run_cache_events in H as [H|[H|[H|H]]]; try (subst e; reflexivity).
        now destruct e.
      * reflexivity.
    + intros lp data. rewrite in_app_iff. intros [H|[H|[]]].
      * apply run_cache_events in H as [H|[H|[H|H]]]; discriminate.
      * discriminate.
  - rewrite Hcommit in Hl'. injection Hl' as <-. congruence.
Qed.

Lemma rerun_skips_witness :
  Cli.main sample_world sample_cfg sample_outcome
  /\ same_args sample_cfg retokened_cfg
  /\ Cli.main cached_world retokened_cfg skipped_outcome
  /\ Cli.out_status skipped_outcome = Cli.Skipped
  /\ filter is_remote_fetch (Cli.out_trace skipped_outcome) = [].
Proof.
  assert (Hargs : same_args sample_cfg retokened_cfg) by (repeat split).
  destruct (rerun_skips sample_world cached_world sample_cfg retokened_cfg
              sample_outcome skipped_outcome
              sample_outcome_is_run eq_refl eq_refl eq_refl Hargs
              skipped_outcome_is_run) as (Hs & _ & Hf & _).
  split; [exact sample_outcome_is_run|]. split; [exact Hargs|].
  split; [exact skipped_outcome_is_run|]. split; [exact Hs | exact Hf].
Defined.

(** X4. After a run that completed, a run that finds the cache file it left
    but gets another answer from the commit lookup (another id, or a failure)
    does not end by the skip. *)
Theorem new_commit_is_not_skipped (W W' : world) (cfg cfg' : config)
    (o o' : Cli.outcome)
    (Hrun : Cli.main W cfg o)
    (Hdone : Cli.out_status o = Cli.Completed)
    (Hcache : cache_file W' = Cli.out_cache o)
    (Hnew : commit_resp W' <> commit_resp W)
    (Hrun' : Cli.main W' cfg' o') :
  Cli.out_status o' <> Cli.Skipped.
Proof.
  destruct Hrun as [Hun|latest Hl Ht Hs|latest Hl Ht Hs|latest tr Hl Ht Hs Htr];
    try discriminate.
  cbn [Cli.out_cache] in *. apply fetchLatest_resolved in Hl.
  destruct Hrun' as [Hun|l' Hl' Ht' Hs'|l' Hl' Ht' Hs'|l' tr' Hl' Ht' Hs' Htr'];
    cbn [Cli.out_status]; try discriminate.
  intros _. apply skip_check_cache in Hs' as (v & Hv & H1 & _).
  rewrite Hcache in Hv. injection Hv as <-.
  destruct (cache_record_props latest (Cli.generateArgsHash cfg)) as [Hc _].
  rewrite Hc in H1. injection H1 as <-.
  apply fetchLatest_resolved in Hl'. apply Hnew. congruence.
Qed.

Lemma newer_outcome_is_run : Cli.main newer_world sample_cfg newer_outcome.
Proof.
  apply (Cli.main_complete newer_world sample_cfg "def" sample_pass);
    try reflexivity.
  apply (walk_all_is_run newer_world sample_cfg 3). reflexivity.
Qed.

Lemma new_commit_is_not_skipped_witness :
  Cli.main sample_world sample_cfg sample_outcome
  /\ commit_resp newer_world <> commit_resp sample_world
  /\ Cli.main newer_world sample_cfg newer_outcome
  /\ Cli.out_status newer_outcome <> Cli.Skipped.
Proof.
  assert (Hnew : commit_resp newer_world <> commit_resp sample_world)
    by discriminate.
  split; [exact sample_outcome_is_run|]. split; [exact Hnew|].
  split; [exact newer_outcome_is_run|].
  apply (new_commit_is_not_skipped sample_world newer_world sample_cfg sample_cfg
           sample_outcome newer_outcome
           sample_outcome_is_run eq_refl eq_refl Hnew newer_outcome_is_run).
Defined.

(* ================================================================== *)
(** * The requests of a traversal *)

Lemma visits_last (W : world) (cfg : config) (p q : string) :
  visits W cfg p q ->
  q = p \/ exists p' it, visits W cfg p p' /\ descends W cfg p' it /\ q = fullPath p' it.
Proof.
  induction 1 as [p|p it q Hd Hv IH]; [now left|]. right.
  destruct IH as [->|(p' & it' & Hp' & Hd' & ->)].
  - exists p, it. split; [constructor | auto].
  - exists p', it'. split; [|auto]. now apply visits_child with it.
Qed.

Lemma visits_prefix (W : world) (cfg : config) (p q : string) :
  visits W cfg p q -> exists suffix, q = (p ++ suffix)%string.
Proof.
  induction 1 as [p|p it q _ _ [s ->]].
  - exists EmptyString. induction p; simpl; congruence.
  - destruct (fullPath_extends p it) as [s' ->].
    exists (s' ++ s)%string. apply append_assoc.
Qed.

Lemma own_task_cases (W : world) (cfg : config) (lvl : level) (q : string)
    (it : item) (e : event) :
  In e (own_task W cfg lvl q it) ->
  (e = ignoring_line (fullPath q it) /\ ignoring cfg it (fullPath q it) = true)
  \/ (type it = "blob" /\ In e (downloadFile_at W cfg lvl (fullPath q it))).
Proof.
  unfold own_task. destruct (ignoring cfg it (fullPath q it)).
  - intros [<-|[]]. now left.
  - destruct (String.eqb_spec (type it) "blob"); [|contradiction]. now right.
Qed.

Lemma run_events_split (W : world) (cfg : config) (fuel : nat) (root : string)
    (tr : trace) :
  Cli.downloadFolder W cfg fuel root tr ->
  forall e, In e tr <->
            exists q, visits W cfg root q
                      /\ (In e (snd (fetchTree W q))
                          \/ exists it, In it (fst (fetchTree W q))
                                        /\ In e (own_task W cfg Debug q it)).
Proof.
  intros Hrun e. rewrite (run_events W cfg fuel root tr Hrun e).
  split; intros (q & Hq & H); exists q; (split; [exact Hq|]);
    unfold own_events in *; rewrite in_app_iff, in_flat_map in *; exact H.
Qed.

Lemma run_lists (W : world) (cfg : config) (fuel : nat) (root : string) (tr : trace) :
  Cli.downloadFolder W cfg fuel root tr ->
  forall q, In (GetTree q) tr <-> visits W cfg root q.
Proof.
  intros Hrun q. rewrite (run_events_split W cfg fuel root tr Hrun). split.
  - intros (q' & Hq' & [H|(it & _ & H)]).
    + apply fetchTree_trace in H as [[= ->]|(d & _ & H)]; [exact Hq' | discriminate].
    + apply own_task_cases in H as [[H _]|[_ H]]; [discriminate|].
      apply downloadFile_trace in H
        as [H|[(d & _ & _ & [H|H])|(d & H)]]; discriminate.
  - intros Hq. exists q. split; [exact Hq|]. left.
    unfold fetchTree. destruct (tree_resp W q); simpl; auto.
Qed.

Lemma run_fetches (W : world) (cfg : config) (fuel : nat) (root : string) (tr : trace) :
  Cli.downloadFolder W cfg fuel root tr ->
  forall f, In (GetRaw f) tr <->
            exists q it, visits W cfg root q /\ In it (fst (fetchTree W q))
                         /\ type it = "blob" /\ f = fullPath q it.
Proof.
  intros Hrun f. rewrite (run_events_split W cfg fuel root tr Hrun). split.
  - intros (q & Hq & [H|(it & Hit & H)]).
    + apply fetchTree_trace in H as [H|(d & _ & H)]; discriminate.
    + apply own_task_cases in H as [[H _]|[Hb H]]; [discriminate|].
      exists q, it. repeat split; auto.
      apply downloadFile_trace in H
        as [[= ->]|[(d & _ & _ & [H|H])|(d & H)]]; try discriminate. reflexivity.
  - intros (q & it & Hq & Hit & Hb & ->). exists q. split; [exact Hq|]. right.
    exists it. split; [exact Hit|]. rewrite own_task_blob by exact Hb.
    unfold downloadFile_at.
    destruct (raw_resp W (fullPath q it));
      [destruct (output_resp W (localPath W cfg (fullPath q it)))|]; simpl; auto.
Qed.

(** X5. In every run of the parallel engine on a folder, the folders listed
    are the folder itself and, for each listed folder, its directory entries
    that the filter does not reject, and no other; so, with a non-empty
    include list, a folder other than the starting one is listed only if one
    term of the list occurs in its path. *)
Theorem listed_folders
    (W : world) (cfg : config) (fuel : nat) (root : string) (tr : trace)
    (Hrun : Cli.downloadFolder W cfg fuel root tr) :
  (forall q,
      In (GetTree q) tr <->
      (q = root
       \/ exists p it,
            In (GetTree p) tr /\ In it (fst (fetchTree W p))
            /\ type it = "tree" /\ ignoring cfg it (fullPath p it) = false
            /\ q = fullPath p it))
  /\ (forall q,
         In (GetTree q) tr -> q <> root -> INCLUDE_ONLY cfg <> [] ->
         exists term, In term (INCLUDE_ONLY cfg) /\ is_substring term q).
Proof.
  pose proof (run_lists W cfg fuel root tr Hrun) as Hl.
  assert (Hfirst : forall q,
             In (GetTree q) tr <->
             (q = root
              \/ exists p it,
                   In (GetTree p) tr /\ In it (fst (fetchTree W p))
                   /\ type it = "tree" /\ ignoring cfg it (fullPath p it) = false
                   /\ q = fullPath p it)).
  { intros q. rewrite Hl. split.
    - intros Hq. apply visits_last in Hq as [->|(p & it & Hp & (Hit & Hi & Hty) & ->)];
        [now left|].
      right. exists p, it. rewrite Hl. auto.
    - intros [->|(p & it & Hp & Hit & Hty & Hi & ->)]; [constructor|].
      apply Hl in Hp. apply visits_step; [exact Hp|]. repeat split; auto. }
  split; [exact Hfirst|].
  intros q Hq Hne Hnonempty.
  apply Hfirst in Hq as [->|(p & it & _ & _ & Hty & Hi & ->)]; [now elim Hne|].
  apply some_accepts_spec. unfold ignoring in Hi. rewrite Hty in Hi.
  destruct (INCLUDE_ONLY cfg) eqn:Hlist; [now elim Hnonempty|].
  simpl in Hi. now apply negb_false_iff in Hi.
Qed.

Lemma listed_folders_witness :
  Cli.downloadFolder sample_world proto_cfg 3 "proto"
    (match walk sample_world proto_cfg Debug 3 "proto" with
     | Some t => t
     | None => []
     end)
  /\ In (GetTree "proto/sub")
        (match walk sample_world proto_cfg Debug 3 "proto" with
         | Some t => t
         | None => []
         end)
  /\ exists term, In term (INCLUDE_ONLY proto_cfg) /\ is_substring term "proto/sub".
Proof.
  assert (H : Cli.downloadFolder sample_world proto_cfg 3 "proto"
                (match walk sample_world proto_cfg Debug 3 "proto" with
                 | Some t => t
                 | None => []
                 end)) by (apply walk_is_run; reflexivity).
  destruct (listed_folders sample_world proto_cfg 3 "proto" _ H) as [Hl Hf].
  assert (Hsub : In (GetTree "proto/sub")
                    (match walk sample_world proto_cfg Debug 3 "proto" with
                     | Some t => t
                     | None => []
                     end)).
  { apply Hl. right. exists "proto", (entry "sub" "tree").
    split; [apply Hl; now left|]. split; [simpl; auto|]. repeat split. }
  split; [exact H|]. split; [exact Hsub|].
  apply (Hf "proto/sub" Hsub); discriminate.
Defined.

(** X6. In every run of the parallel engine, the files requested are the
    entries of type [blob] of the listed folders, all of them and no other:
    the include list never holds back a file of a listed folder, and an
    entry of another type (a submodule) is never requested. *)
Theorem fetched_files
    (W : world) (cfg : config) (fuel : nat) (root : string) (tr : trace)
    (Hrun : Cli.downloadFolder W cfg fuel root tr) :
  forall f,
    In (GetRaw f) tr <->
    exists q it,
      In (GetTree q) tr /\ In it (fst (fetchTree W q))
      /\ type it = "blob" /\ f = fullPath q it.
Proof.
  intros f. rewrite (run_fetches W cfg fuel root tr Hrun).
  split; intros (q & it & Hq & H); exists q, it; (split; [|exact H]);
    now apply (run_lists W cfg fuel root tr Hrun).
Qed.

Lemma fetched_files_witness :
  Cli.downloadFolder sample_world proto_cfg 3 "proto"
    (match walk sample_world proto_cfg Debug 3 "proto" with
     | Some t => t
     | None => []
     end)
  /\ In (GetRaw "proto/bad.proto")
        (match walk sample_world proto_cfg Debug 3 "proto" with
         | Some t => t
         | None => []
         end).
Proof.
  assert (H : Cli.downloadFolder sample_world proto_cfg 3 "proto"
                (match walk sample_world proto_cfg Debug 3 "proto" with
                 | Some t => t
                 | None => []
                 end)) by (apply walk_is_run; reflexivity).
  split; [exact H|].
  apply (fetched_files sample_world proto_cfg 3 "proto" _ H).
  exists "proto", (entry "bad.proto" "blob").
  split; [simpl; auto|]. split; [simpl; auto|]. split; reflexivity.
Defined.

Lemma folders_events (W : world) (cfg : config) (folders : list string) :
  forall (tr : trace) (e : event),
    Cli.downloadFolders W cfg folders tr -> In e tr ->
    exists root fuel t,
      In root folders /\ Cli.downloadFolder W cfg fuel root t /\ In e t.
Proof.
  induction folders as [|f rest IH]; simpl; intros tr e.
  - intros ->. contradiction.
  - intros (t & t' & [fuel Hrun] & Hrest & ->) He.
    apply in_app_or in He as [He|He].
    + exists f, fuel, t. auto.
    + destruct (IH t' e Hrest He) as (root & fu & u & Hin & Hu & Heu).
      exists root, fu, u. auto.
Qed.

(** X7. Whatever a run of [main] asks the server to list or to fetch lies
    under one of the two root folders: the path requested starts with
    [proto] or with [build]. *)
Theorem requests_stay_under_roots
    (W : world) (cfg : config) (o : Cli.outcome) (Hrun : Cli.main W cfg o) :
  forall q,
    In (GetTree q) (Cli.out_trace o) \/ In (GetRaw q) (Cli.out_trace o) ->
    exists root suffix,
      In root FOLDERS_TO_DOWNLOAD /\ q = (root ++ suffix)%string.
Proof.
  assert (Hquiet : forall e, In e (Cli.run_cache W cfg) -> is_remote_fetch e = false).
  { intros e H. apply run_cache_events in H as [H|[H|[H|H]]];
      try (subst e; reflexivity). now destruct e. }
  assert (Hstart : forall e, In e (Cli.run_start W cfg) -> is_remote_fetch e = false).
  { intros e H. apply run_start_events in H as [H|H];
      try (subst e; reflexivity). now destruct e. }
  assert (Hmid : forall q tr,
             Cli.downloadFolders W cfg FOLDERS_TO_DOWNLOAD tr ->
             In (GetTree q) tr \/ In (GetRaw q) tr ->
             exists root suffix,
               In root FOLDERS_TO_DOWNLOAD /\ q = (root ++ suffix)%string).
  { intros q tr Htr [H|H];
      destruct (folders_events W cfg _ tr _ Htr H) as (root & fuel & t & Hin & Ht & He);
      exists root.
    - apply (run_lists W cfg fuel root t Ht) in He.
      destruct (visits_prefix W cfg root q He) as [s ->]. now exists s.
    - apply (run_fetches W cfg fuel root t Ht) in He as (p & it & Hp & _ & _ & ->).
      destruct (visits_prefix W cfg root p Hp) as [s ->].
      destruct (fullPath_extends (root ++ s) it) as [s' ->].
      exists (s ++ s')%string. split; [exact Hin | apply append_assoc]. }
  destruct Hrun as [Hun|latest Hl Ht Hs|latest Hl Ht Hs|latest tr Hl Ht Hs Htr];
    cbn [Cli.out_trace]; intros q.
  - rewrite !in_app_iff. intros [[H|[H|[]]]|[H|[H|[]]]]; try discriminate;
      apply Hstart in H; discriminate.
  - rewrite !in_app_iff. intros [[H|[H|[]]]|[H|[H|[]]]]; try discriminate;
      apply Hquiet in H; discriminate.
  - rewrite !in_app_iff. intros [[H|[H|[]]]|[H|[H|[]]]]; try discriminate;
      apply Hquiet in H; discriminate.
  - rewrite !in_app_iff. intros H. apply (Hmid q tr Htr).
    destruct H as [[H|[H|H]]|[H|[H|H]]];
      try (apply Hquiet in H; discriminate); auto;
      destruct H as [H|[H|[]]]; discriminate.
Qed.

Lemma requests_stay_under_roots_witness :
  Cli.main sample_world sample_cfg sample_outcome
  /\ In (GetRaw "proto/sub/b.proto") (Cli.out_trace sample_outcome)
  /\ exists root suffix,
       In root FOLDERS_TO_DOWNLOAD /\ "proto/sub/b.proto" = (root ++ suffix)%string.
Proof.
  assert (Hin : In (GetRaw "proto/sub/b.proto") (Cli.out_trace sample_outcome))
    by (vm_compute; auto 20).
  split; [exact sample_outcome_is_run|]. split; [exact Hin|].
  apply (requests_stay_under_roots sample_world sample_cfg sample_outcome
           sample_outcome_is_run).
  right. exact Hin.
Defined.

(* ================================================================== *)
(** * Order and log lines under any interleaving *)

Lemma fetched_first_seen (W : world) (cfg : config) (seen : trace) (x : event)
    (t : trace) :
  fetched_first W cfg seen t -> fetched_first W cfg (seen ++ [x]) t.
Proof.
  intros H a lp data b Ht. destruct (H a lp data b Ht) as (f & Hf & Hrest).
  exists f. split; [|exact Hrest].
  rewrite !in_app_iff in *. simpl. tauto.
Qed.

Lemma fetched_first_tail (W : world) (cfg : config) (seen : trace) (x : event)
    (t : trace) :
  fetched_first W cfg seen (x :: t) -> fetched_first W cfg (seen ++ [x]) t.
Proof.
  intros H a lp data b Ht.
  destruct (H (x :: a) lp data b) as (f & Hf & Hrest); [simpl; now rewrite Ht|].
  exists f. split; [|exact Hrest]. now rewrite <- app_assoc.
Qed.

(** Interleaving keeps every write behind its fetch. *)
Lemma shuffle_fetched_first (W : world) (cfg : config) (trs : list trace) (tr : trace) :
  shuffle trs tr ->
  forall seen,
    (forall t, In t trs -> fetched_first W cfg seen t) ->
    fetched_first W cfg seen tr.
Proof.
  induction 1 as [trs _|before x t after tr _ IH]; intros seen Hall.
  - intros a lp data b H. destruct a; discriminate.
  - assert (Hx : fetched_first W cfg seen (x :: t))
      by (apply Hall, in_or_app; right; now left).
    assert (Htr : fetched_first W cfg (seen ++ [x]) tr).
    { apply IH. intros t' Ht'. apply in_app_or in Ht' as [Ht'|[<-|Ht']].
      - apply fetched_first_seen, Hall, in_or_app. now left.
      - now apply fetched_first_tail.
      - apply fetched_first_seen, Hall, in_or_app. right. now right. }
    intros a lp data b H. destruct a as [|y a]; simpl in H.
    + injection H as -> ->. apply (Hx [] lp data t). reflexivity.
    + injection H as <- ->.
      destruct (Htr a lp data b eq_refl) as (f & Hf & Hrest).
      exists f. split; [|exact Hrest]. now rewrite <- app_assoc in Hf.
Qed.

Lemma app_split_after {A : Type} (l1 l2 a b : list A) (x : A) :
  ~ In x l1 -> l1 ++ l2 = a ++ x :: b ->
  exists a', a = l1 ++ a' /\ l2 = a' ++ x :: b.
Proof.
  revert a. induction l1 as [|y l1 IH]; intros a Hx H; simpl in *.
  - now exists a.
  - destruct a as [|z a]; simpl in H.
    + injection H as -> _. elim Hx. now left.
    + injection H as <- H. destruct (IH a) as (a' & -> & ->); auto.
      now exists a'.
Qed.

Lemma downloadFile_fetched_first (W : world) (cfg : config) (lvl : level) (f : string) :
  fetched_first W cfg [] (downloadFile_at W cfg lvl f).
Proof.
  unfold downloadFile_at, failed_download. intros a lp data b.
  destruct (raw_resp W f) as [d|detail] eqn:Hr;
    [destruct (output_resp W (localPath W cfg f))|];
    destruct a as [|e1 [|e2 [|e3 [|e4 a]]]]; simpl; intros H; try discriminate.
  injection H as He Hlp Hd Hb. subst. exists f. simpl. auto.
Qed.

Lemma run_fetched_first (W : world) (cfg : config) (fuel : nat) :
  forall (p : string) (tr : trace),
    Cli.downloadFolder W cfg fuel p tr -> fetched_first W cfg [] tr.
Proof.
  induction fuel as [|n IH]; intros p tr; simpl; [contradiction|].
  intros (trs & body & HF & Hsh & ->).
  assert (Hbody : fetched_first W cfg [] body).
  { apply (shuffle_fetched_first W cfg trs body Hsh). intros t Ht.
    destruct (Forall2_In_r _ _ _ _ HF Ht) as (it & _ & Htask).
    unfold Cli.task in Htask.
    destruct (ignoring cfg it (fullPath p it)).
    { subst t. intros [|e [|e' a]] lp data b H; discriminate. }
    destruct (type it =? "blob")%string.
    { subst t. apply downloadFile_fetched_first. }
    destruct (type it =? "tree")%string; [now apply IH with (fullPath p it)|].
    subst t. intros [|e a] lp data b H; discriminate. }
  intros a lp data b H.
  apply app_split_after in H as (a' & -> & H).
  - destruct (Hbody a' lp data b H) as (f & Hf & Hrest).
    exists f. split; [|exact Hrest]. simpl in *. apply in_or_app. now right.
  - intros Hin. apply fetchTree_trace in Hin as [Hin|(d & _ & Hin)]; discriminate.
Qed.

(** X8. In every run of the parallel engine, however the tasks interleave,
    a file is written only after the request that fetched it was sent: each
    write is preceded in the trace by the fetch of a file whose local path is
    the path written and whose bytes are the bytes written. *)
Theorem write_follows_fetch
    (W : world) (cfg : config) (fuel : nat) (root : string) (tr : trace)
    (Hrun : Cli.downloadFolder W cfg fuel root tr) :
  forall before lp data after,
    tr = before ++ OutputFile lp data :: after ->
    exists f,
      In (GetRaw f) before /\ lp = localPath W cfg f /\ raw_resp W f = Ok data.
Proof.
  intros before lp data after H.
  exact (run_fetched_first W cfg fuel root tr Hrun before lp data after H).
Qed.

Lemma write_follows_fetch_witness :
  Cli.downloadFolder sample_world sample_cfg 2 "proto" overlapped_run
  /\ exists f,
       In (GetRaw f)
          [GetTree "proto"; GetRaw "proto/a.proto"; GetTree "proto/sub";
           GetTree "proto/broken"; GetRaw "proto/bad.proto";
           ConsoleWith Error "Failed to fetch tree for proto/broken:" "404 Tree Not Found";
           OutputFile "/home/u/downloads/proto/a.proto" [x61];
           GetRaw "proto/sub/b.proto";
           ConsoleWith Error "Failed to download proto/bad.proto:" "socket hang up";
           Console Debug "Downloaded: /home/u/downloads/proto/a.proto"]
       /\ "/home/u/downloads/proto/sub/b.proto" = localPath sample_world sample_cfg f
       /\ raw_resp sample_world f = Ok [x62].
Proof.
  destruct overlapped_run_is_run as [Hrun _].
  split; [exact Hrun|].
  apply (write_follows_fetch sample_world sample_cfg 2 "proto" overlapped_run Hrun
           _ _ _ [Console Debug "Downloaded: /home/u/downloads/proto/sub/b.proto"]).
  reflexivity.
Defined.

(** X9. In every run of the parallel engine, the "Downloaded" lines tell
    the writes: a line for a local path is printed iff a file was written at
    that path. *)
Theorem downloaded_lines_match_writes
    (W : world) (cfg : config) (fuel : nat) (root : string) (tr : trace)
    (Hrun : Cli.downloadFolder W cfg fuel root tr) :
  forall lp,
    In (Console Debug ("Downloaded: " ++ lp)) tr
    <-> exists data, In (OutputFile lp data) tr.
Proof.
  pose proof (run_events_split W cfg fuel root tr Hrun) as Hev.
  assert (Hfile : forall q it e,
             visits W cfg root q -> In it (fst (fetchTree W q)) -> type it = "blob" ->
             In e (downloadFile_at W cfg Debug (fullPath q it)) -> In e tr).
  { intros q it e Hq Hit Hb He. apply Hev. exists q. split; [exact Hq|]. right.
    exists it. split; [exact Hit|]. now rewrite own_task_blob. }
  intros lp. split.
  - intros H. apply Hev in H as (q & Hq & [H|(it & Hit & H)]).
    + apply fetchTree_trace in H as [H|(d & _ & H)]; discriminate.
    + apply own_task_cases in H as [[H _]|[Hb H]]; [discriminate|].
      pose proof H as H'.
      apply downloadFile_trace in H'
        as [H'|[(d & Hr & Ho & [H'|H'])|(d & H')]]; try discriminate.
      injection H' as H'. subst lp.
      exists d. apply (Hfile q it); auto.
      unfold downloadFile_at. rewrite Hr, Ho. simpl. auto.
  - intros [data H]. apply Hev in H as (q & Hq & [H|(it & Hit & H)]).
    + apply fetchTree_trace in H as [H|(d & _ & H)]; discriminate.
    + apply own_task_cases in H as [[H _]|[Hb H]]; [discriminate|].
      pose proof H as H'.
      apply downloadFile_trace in H'
        as [H'|[(d & Hr & Ho & [H'|H'])|(d & H')]]; try discriminate.
      injection H' as -> ->. apply (Hfile q it); auto.
      unfold downloadFile_at. rewrite Hr, Ho. simpl. auto.
Qed.

Lemma downloaded_lines_match_writes_witness :
  Cli.downloadFolder sample_world sample_cfg 2 "proto" overlapped_run
  /\ exists data, In (OutputFile "/home/u/downloads/proto/a.proto" data) overlapped_run.
Proof.
  destruct overlapped_run_is_run as [Hrun _].
  split; [exact Hrun|].
  apply (downloaded_lines_match_writes sample_world sample_cfg 2 "proto"
           overlapped_run Hrun).
  simpl. auto 20.
Defined.

(* ================================================================== *)
(** * The include list read from the command line *)

Lemma includes_empty (s : string) : includes s EmptyString = true.
Proof. destruct s; reflexivity. Qed.

Lemma split_on_trailing (sep : ascii) (s : string) :
  exists seg l, split_on sep (s ++ String sep EmptyString) = seg :: l ++ [EmptyString].
Proof.
  induction s as [|c s (seg & l & IH)]; simpl.
  - rewrite Ascii.eqb_refl. now exists EmptyString, [].
  - destruct (Ascii.eqb c sep).
    + exists EmptyString, (seg :: l). now rewrite IH.
    + rewrite IH. now exists (String c seg), l.
Qed.

(** X10. When [--includeOnly] starts or ends with a comma, the include list
    holds an empty term; the empty term occurs in every path, so no folder
    at all is ignored: the filter is without effect. *)
Theorem stray_comma_disables_filter (cfg : config) (s : string)
    (Hopt : INCLUDE_ONLY cfg = include_only_of (Some (s ++ ",")%string)
            \/ INCLUDE_ONLY cfg = include_only_of (Some ("," ++ s)%string)) :
  In EmptyString (INCLUDE_ONLY cfg)
  /\ forall it fp, ignoring cfg it fp = false.
Proof.
  assert (Hin : In EmptyString (INCLUDE_ONLY cfg)).
  { destruct Hopt as [-> | ->].
    - unfold include_only_of.
      replace (truthy (s ++ ",")%string) with true by (destruct s; reflexivity).
      destruct (split_on_trailing "," s) as (seg & l & ->).
      right. apply in_or_app. right. now left.
    - simpl. now left. }
  split; [exact Hin|]. intros it fp. unfold ignoring, some_accepts.
  replace (existsb (fun accept => includes fp accept) (INCLUDE_ONLY cfg)) with true.
  - apply andb_false_r.
  - symmetry. apply existsb_exists. exists EmptyString.
    split; [exact Hin | apply includes_empty].
Qed.

Lemma stray_comma_disables_filter_witness :
  INCLUDE_ONLY trailing_cfg = ["docs"; EmptyString]
  /\ ignoring trailing_cfg (entry "sub" "tree") "proto/sub" = false.
Proof.
  split; [reflexivity|].
  apply (stray_comma_disables_filter trailing_cfg "docs"). left. reflexivity.
Defined.

Lemma join_split (sep : ascii) (s : string) :
  join (String sep EmptyString) (split_on sep s) = s.
Proof.
  induction s as [|c s IH]; [reflexivity|]. simpl.
  destruct (Ascii.eqb_spec c sep) as [->|Hne].
  - destruct (split_on sep s) as [|seg segs] eqn:Hs;
      [now apply split_on_nonempty in Hs|].
    cbn [join]. simpl. now rewrite <- IH.
  - destruct (split_on sep s) as [|seg segs] eqn:Hs;
      [now apply split_on_nonempty in Hs|].
    rewrite <- IH. destruct segs; reflexivity.
Qed.

Lemma split_on_no_sep (sep : ascii) (s term : string) :
  In term (split_on sep s) -> includes term (String sep EmptyString) = false.
Proof.
  revert term. induction s as [|c s IH]; simpl; intros term.
  - intros [<-|[]]. reflexivity.
  - destruct (Ascii.eqb_spec c sep) as [->|Hne].
    + intros [<-|H]; [reflexivity | now apply IH].
    + destruct (split_on sep s) as [|seg segs] eqn:Hs.
      * intros [<-|[]]. simpl. apply Ascii.eqb_neq in Hne.
        rewrite Ascii.eqb_sym. now rewrite Hne.
      * intros [<-|H]; [|apply IH; now right].
        cbn [includes starts_with]. rewrite Ascii.eqb_sym.
        apply Ascii.eqb_neq in Hne. rewrite Hne. simpl.
        apply IH. now left.
Qed.

(** X11. The include list keeps all of a non-empty [--includeOnly] option:
    the terms joined by commas give the option back, and no term contains a
    comma. *)
Theorem include_list_round_trip (s : string) (Hs : truthy s = true) :
  join "," (include_only_of (Some s)) = s
  /\ forall term, In term (include_only_of (Some s)) -> includes term "," = false.
Proof.
  unfold include_only_of. rewrite Hs. split.
  - apply join_split.
  - intros term. apply split_on_no_sep.
Qed.

Lemma include_list_round_trip_witness :
  truthy "src,docs" = true
  /\ include_only_of (Some "src,docs") = ["src"; "docs"]
  /\ join "," (include_only_of (Some "src,docs")) = "src,docs".
Proof.
  split; [reflexivity|]. split; [reflexivity|].
  apply (include_list_round_trip "src,docs" eq_refl).
Defined.

(* ================================================================== *)
(** * Runs compared *)

Lemma walk_run_perm (W : world) (cfg : config) (fuel : nat) :
  forall (fuel' : nat) (p : string) (ts tp : trace),
    walk W cfg Debug fuel p = Some ts ->
    Cli.downloadFolder W cfg fuel' p tp ->
    Permutation ts tp.
Proof.
  induction fuel as [|n IH]; intros fuel' p ts tp; simpl; [discriminate|].
  destruct fuel' as [|n']; simpl; [contradiction|].
  destruct (loop W cfg Debug (walk W cfg Debug n) p (fst (fetchTree W p)))
    as [body|] eqn:Hl; [|discriminate].
  intros [= <-] (trs & body' & HF & Hsh & ->).
  apply Permutation_app_head.
  apply Permutation_trans with (concat trs); [|apply shuffle_perm, Hsh].
  clear Hsh. revert body trs Hl HF.
  generalize (fst (fetchTree W p)) as items.
  induction items as [|it items IHi]; simpl; intros body trs Hl HF.
  - injection Hl as <-. inversion HF; subst. constructor.
  - destruct (visit W cfg Debug (walk W cfg Debug n) p it) as [t|] eqn:Hv;
      [|discriminate].
    destruct (loop W cfg Debug (walk W cfg Debug n) p items) as [t'|] eqn:Hl';
      [|discriminate].
    injection Hl as <-. inversion HF as [|? t1 ? trs1 Htask HF1]; subst. simpl.
    apply Permutation_app; [|now apply IHi].
    unfold visit in Hv. unfold Cli.task, Cli.downloadFile in Htask.
    destruct (ignoring cfg it (fullPath p it)).
    { injection Hv as <-. subst t1. apply Permutation_refl. }
    destruct (type it =? "blob")%string.
    { injection Hv as <-. subst t1. apply Permutation_refl. }
    destruct (type it =? "tree")%string.
    { now apply IH with n' (fullPath p it). }
    injection Hv as <-. subst t1. apply Permutation_refl.
Qed.

(** X12. Two runs of the parallel engine on the same folder, in the same
    surroundings, differ by the order of their events only: the same
    requests, the same writes and the same console lines occur in both, each
    as many times. *)
Theorem runs_differ_by_order_only
    (W : world) (cfg : config) (fuel fuel' : nat) (root : string) (tr tr' : trace)
    (Hrun : Cli.downloadFolder W cfg fuel root tr)
    (Hrun' : Cli.downloadFolder W cfg fuel' root tr') :
  Permutation tr tr'.
Proof.
  destruct (run_has_walk W cfg Debug fuel root tr Hrun) as [ts Hs].
  apply Permutation_trans with ts.
  - apply Permutation_sym. exact (walk_run_perm W cfg fuel fuel root ts tr Hs Hrun).
  - exact (walk_run_perm W cfg fuel fuel' root ts tr' Hs Hrun').
Qed.

Lemma runs_differ_by_order_only_witness :
  Cli.downloadFolder sample_world sample_cfg 2 "proto" overlapped_run
  /\ Cli.downloadFolder sample_world sample_cfg 3 "proto"
       (match walk sample_world sample_cfg Debug 3 "proto" with
        | Some t => t
        | None => []
        end)
  /\ Permutation overlapped_run
       (match walk sample_world sample_cfg Debug 3 "proto" with
        | Some t => t
        | None => []
        end).
Proof.
  destruct overlapped_run_is_run as [Hrun _].
  assert (H : Cli.downloadFolder sample_world sample_cfg 3 "proto"
                (match walk sample_world sample_cfg Debug 3 "proto" with
                 | Some t => t
                 | None => []
                 end)) by (apply walk_is_run; reflexivity).
  split; [exact Hrun|]. split; [exact H|].
  exact (runs_differ_by_order_only sample_world sample_cfg 2 3 "proto" _ _ Hrun H).
Defined.

Lemma walk_all_effects_perm (W : world) (cfg : config) (lvl : level) (fuel : nat)
    (folders : list string) :
  forall ts tp : trace,
    walk_all W cfg lvl fuel folders = Some ts ->
    Cli.downloadFolders W cfg folders tp ->
    Permutation (effects ts) (effects tp).
Proof.
  induction folders as [|f rest IH]; simpl; intros ts tp.
  - intros [= <-] ->. constructor.
  - destruct (walk W cfg lvl fuel f) as [t|] eqn:Ht; [|discriminate].
    destruct (walk_all W cfg lvl fuel rest) as [t'|]; [|discriminate].
    intros [= <-] (u & u' & [fuel' Hu] & Hu' & ->).
    rewrite !effects_app. apply Permutation_app.
    + exact (walk_effects_perm W cfg lvl fuel fuel' f t u Ht Hu).
    + now apply IH.
Qed.

(** X13. The sequential program and a completed run of cli.js do the same
    work on the repository: the listings, the fetches and the writes of the
    one are those of the other, each as many times.  The sequential program
    does nothing else: it never looks up the commit and never reads or
    writes the cache file. *)
Theorem completed_run_matches_sequential_program
    (W : world) (cfg : config) (fuel : nat) (ts : trace) (o : Cli.outcome)
    (Hseq : Seq.main W cfg fuel = Some ts)
    (Hrun : Cli.main W cfg o)
    (Hdone : Cli.out_status o = Cli.Completed) :
  Permutation (effects ts) (filter is_traversal (effects (Cli.out_trace o)))
  /\ forall e, In e ts -> is_traversal e = true.
Proof.
  assert (Hperm : Permutation (effects ts)
                    (filter is_traversal (effects (Cli.out_trace o)))).
  { unfold Seq.main in Hseq.
    destruct (walk_all W cfg Log fuel FOLDERS_TO_DOWNLOAD) as [t|] eqn:Ht;
      [|discriminate].
    assert (Hts : effects ts = effects t).
    { injection Hseq as <-. unfold opening, effects. simpl.
      destruct (0 <? List.length (INCLUDE_ONLY cfg))%nat; simpl;
        rewrite filter_app; simpl; apply app_nil_r. }
    rewrite Hts. clear Hseq Hts.
    destruct Hrun as [Hun|latest Hl Hid Hs|latest Hl Hid Hs|latest tr Hl Hid Hs Htr];
      try discriminate.
    cbn [Cli.out_trace]. rewrite !effects_app, !filter_app.
    rewrite (filter_none is_traversal (effects (Cli.run_cache W cfg))).
    - rewrite (filter_all is_traversal (effects tr)).
      + simpl. rewrite app_nil_r.
        exact (walk_all_effects_perm W cfg Log fuel _ t tr Ht Htr).
      + intros e He. apply effects_In in He as [He _].
        exact (folders_traversal W cfg _ tr e Htr He).
    - intros e He. apply effects_In in He as [He Hc].
      apply run_cache_events in He as [He|[He|[He|He]]];
        [congruence | subst e; reflexivity ..]. }
  split; [exact Hperm|].
  intros e He. destruct (is_console e) eqn:Hc; [now destruct e|].
  assert (Hin : In e (filter is_traversal (effects (Cli.out_trace o)))).
  { apply Permutation_in with (effects ts); [exact Hperm|].
    apply effects_In. auto. }
  now apply filter_In in Hin.
Qed.

Lemma completed_run_matches_sequential_program_witness :
  Seq.main sample_world sample_cfg 3 = Some sample_seq_trace
  /\ Cli.main sample_world sample_cfg sample_outcome
  /\ Permutation (effects sample_seq_trace)
       (filter is_traversal (effects (Cli.out_trace sample_outcome))).
Proof.
  assert (Hseq : Seq.main sample_world sample_cfg 3 = Some sample_seq_trace)
    by reflexivity.
  split; [exact Hseq|]. split; [exact sample_outcome_is_run|].
  apply (completed_run_matches_sequential_program sample_world sample_cfg 3
           sample_seq_trace sample_outcome Hseq sample_outcome_is_run eq_refl).
Defined.

(* ================================================================== *)
(** * Termination *)

Lemma bounded_walk_all (W : world) (cfg : config) (lvl : level) (n : nat)
    (folders : list string) :
  (forall f, In f folders -> bounded W cfg n f) ->
  exists ts, walk_all W cfg lvl n folders = Some ts.
Proof.
  induction folders as [|f rest IH]; simpl; intros Hb; [now eexists|].
  destruct (bounded_walk W cfg lvl n f (Hb f (or_introl eq_refl))) as [t ->].
  destruct IH as [t' ->]; [intros g Hg; apply Hb; now right|]. now eexists.
Qed.

(** X14. When the directories that the traversal enters under the two root
    folders are nested less than [n] deep, both programs return, whatever
    listings, fetches and writes fail on the way: cli.js has a run, and the
    sequential program returns within depth [n]. *)
Theorem programs_return_on_bounded_tree (W : world) (cfg : config) (n : nat)
    (Hb : forall f, In f FOLDERS_TO_DOWNLOAD -> bounded W cfg n f) :
  (exists o, Cli.main W cfg o) /\ (exists ts, Seq.main W cfg n = Some ts).
Proof.
  split.
  - exact (main_total W cfg n Hb).
  - unfold Seq.main.
    destruct (bounded_walk_all W cfg Log n FOLDERS_TO_DOWNLOAD Hb) as [ts ->].
    now eexists.
Qed.

Lemma sample_bounded :
  forall f, In f FOLDERS_TO_DOWNLOAD -> bounded sample_world sample_cfg 3 f.
Proof.
  intros f [<-|[<-|[]]]; intros it (Hin & _ & Hty); simpl in Hin.
  - destruct Hin as [<-|[<-|[<-|[<-|[<-|[]]]]]]; try discriminate Hty;
      intros it' (Hin' & _ & Hty'); simpl in Hin'.
    + destruct Hin' as [<-|[]]. discriminate Hty'.
    + contradiction.
  - destruct Hin as [<-|[]]. discriminate Hty.
Qed.

Lemma programs_return_on_bounded_tree_witness :
  (forall f, In f FOLDERS_TO_DOWNLOAD -> bounded sample_world sample_cfg 3 f)
  /\ (exists o, Cli.main sample_world sample_cfg o)
  /\ (exists ts, Seq.main sample_world sample_cfg 3 = Some ts).
Proof.
  split; [exact sample_bounded|].
  exact (programs_return_on_bounded_tree sample_world sample_cfg 3 sample_bounded).
Defined.

(* ================================================================== *)
(** * Local paths for ordinary names *)

Lemma plain_facts (seg : string) :
  plain seg = true ->
  truthy seg = true /\ (seg =? EmptyString)%string = false
  /\ (seg =? ".")%string = false /\ (seg =? "..")%string = false
  /\ no_slash seg = true.
Proof.
  unfold plain. rewrite !andb_true_iff, !negb_true_iff.
  intros [[[Ht H1] H2] H3]. repeat split; auto. now destruct seg.
Qed.

Lemma split_app (sep : ascii) (a b : string) :
  split_on sep (a ++ String sep b) = split_on sep a ++ split_on sep b.
Proof.
  induction a as [|c a IH]; simpl.
  - now rewrite Ascii.eqb_refl.
  - destruct (Ascii.eqb c sep); rewrite IH; [reflexivity|].
    destruct (split_on sep a) as [|seg segs] eqn:Hs;
      [now apply split_on_nonempty in Hs | reflexivity].
Qed.

Lemma split_no_slash (s : string) :
  no_slash s = true -> split_on "/" s = [s].
Proof.
  induction s as [|c s IH]; simpl; [reflexivity|].
  rewrite andb_true_iff, negb_true_iff. intros [Hc Hs].
  rewrite Hc, (IH Hs). reflexivity.
Qed.

Lemma join_cons2 (sep x y : string) (l : list string) :
  join sep (x :: y :: l) = (x ++ sep ++ join sep (y :: l))%string.
Proof. reflexivity. Qed.

Lemma split_join (segs : list string) :
  segs <> [] -> Forall (fun s => no_slash s = true) segs ->
  split_on "/" (join "/" segs) = segs.
Proof.
  induction segs as [|x [|y l] IH]; intros Hne Hall.
  - now elim Hne.
  - inversion Hall; subst. now apply split_no_slash.
  - inversion Hall as [|? ? Hx Hrest]; subst.
    rewrite join_cons2. change ("/" ++ join "/" (y :: l))%string
      with (String "/" (join "/" (y :: l))).
    rewrite split_app, (split_no_slash x Hx), IH; [reflexivity|discriminate|exact Hrest].
Qed.

Lemma join_truthy (segs : list string) :
  segs <> [] -> Forall (fun s => truthy s = true) segs ->
  truthy (join "/" segs) = true.
Proof.
  destruct segs as [|x [|y l]]; intros Hne Hall; [now elim Hne| |];
    inversion Hall; subst; [assumption|].
  rewrite join_cons2. now destruct x.
Qed.

Lemma ends_with_slash_app (a b : string) :
  truthy b = true -> ends_with_slash (a ++ b) = ends_with_slash b.
Proof.
  intros Hb. induction a as [|c a IH]; [reflexivity|].
  simpl. destruct (a ++ b)%string eqn:Hab.
  - destruct a; [simpl in Hab; subst b|]; discriminate.
  - exact IH.
Qed.

Lemma ends_with_slash_plain (s : string) :
  no_slash s = true -> ends_with_slash s = false.
Proof.
  induction s as [|c s IH]; [reflexivity|]. simpl.
  rewrite andb_true_iff, negb_true_iff. intros [Hc Hs].
  destruct s; [exact Hc | now apply IH].
Qed.

Lemma ends_with_slash_join (segs : list string) :
  segs <> [] -> Forall (fun s => plain s = true) segs ->
  ends_with_slash (join "/" segs) = false.
Proof.
  induction segs as [|x [|y l] IH]; intros Hne Hall.
  - now elim Hne.
  - inversion Hall as [|? ? Hx _]; subst.
    apply ends_with_slash_plain. now apply plain_facts in Hx.
  - inversion Hall as [|? ? _ Hrest]; subst. rewrite join_cons2.
    rewrite <- append_assoc. rewrite ends_with_slash_app.
    + apply IH; [discriminate | exact Hrest].
    + apply join_truthy; [discriminate|].
      eapply Forall_impl; [|exact Hrest]. intros s Hs. now apply plain_facts in Hs.
Qed.

(** Normalization keeps the ordinary segments and drops the empty ones. *)
Lemma normalize_steps (l : list string) :
  Forall (fun s => s = EmptyString \/ plain s = true) l ->
  forall acc,
    fold_left (normalize_step false) l acc = rev (filter truthy l) ++ acc.
Proof.
  induction 1 as [|s l Hs _ IH]; intros acc; [reflexivity|].
  simpl. destruct Hs as [->|Hs].
  - simpl. apply IH.
  - apply plain_facts in Hs as (Ht & H0 & H1 & H2 & _).
    unfold normalize_step at 2. rewrite H0, H1, H2, Ht. simpl.
    rewrite IH, <- app_assoc. reflexivity.
Qed.

Lemma filter_truthy_plain (l : list string) :
  Forall (fun s => plain s = true) l -> filter truthy l = l.
Proof.
  intros H. apply filter_all. intros s Hs.
  rewrite Forall_forall in H. apply H in Hs. now apply plain_facts in Hs.
Qed.

Lemma split_join_plain (l : list string) :
  Forall (fun s => plain s = true) l ->
  filter truthy (split_on "/" (join "/" l)) = l
  /\ Forall (fun s => s = EmptyString \/ plain s = true) (split_on "/" (join "/" l)).
Proof.
  intros H. destruct l as [|x l].
  - split; [reflexivity|]. repeat constructor.
  - rewrite split_join; [|discriminate|].
    + split; [now apply filter_truthy_plain|].
      eapply Forall_impl; [|exact H]. intros s Hs. now right.
    + eapply Forall_impl; [|exact H]. intros s Hs. now apply plain_facts in Hs.
Qed.

Lemma normalize_absolute (path : string) (segs : list string) :
  Forall (fun s => s = EmptyString \/ plain s = true) (split_on "/" path) ->
  filter truthy (split_on "/" path) = segs ->
  segs <> [] -> Forall (fun s => plain s = true) segs ->
  ends_with_slash path = false ->
  normalize (String "/" path) = ("/" ++ join "/" segs)%string.
Proof.
  intros Hall Hsegs Hne Hplain Hend.
  assert (Hjoin : truthy (join "/" segs) = true).
  { apply join_truthy; [exact Hne|].
    eapply Forall_impl; [|exact Hplain]. intros s Hs. now apply plain_facts in Hs. }
  assert (Hnorm : normalizeString false (String "/" path) = join "/" segs).
  { unfold normalizeString.
    change (split_on "/" (String "/" path)) with (EmptyString :: split_on "/" path).
    rewrite normalize_steps.
    - simpl. rewrite app_nil_r, rev_involutive, Hsegs. reflexivity.
    - constructor; [now left | exact Hall]. }
  assert (Hend' : ends_with_slash (String "/" path) = false).
  { simpl. destruct path; [|exact Hend].
    simpl in Hsegs. subst segs. now elim Hne. }
  unfold normalize.
  change (String "/" path =? EmptyString)%string with false.
  change (starts_with (String "/" path) "/") with true.
  cbn [negb]. rewrite Hnorm, Hend'.
  destruct (join "/" segs) eqn:Hj; [discriminate|]. reflexivity.
Qed.

Lemma path_join_with_dir (a b c : string) :
  truthy a = true -> truthy b = true -> truthy c = true ->
  path_join [a; b; c] = normalize (a ++ "/" ++ b ++ "/" ++ c).
Proof.
  intros Ha Hb Hc. unfold path_join. cbn [filter]. rewrite Ha, Hb, Hc. reflexivity.
Qed.

Lemma path_join_no_dir (a c : string) :
  truthy a = true -> truthy c = true ->
  path_join [a; EmptyString; c] = normalize (a ++ "/" ++ c).
Proof.
  intros Ha Hc. unfold path_join. cbn [filter truthy]. rewrite Ha, Hc. reflexivity.
Qed.

Lemma localPath_plain (W : world) (cfg : config) (csegs dsegs fsegs : list string) :
  cwd W = ("/" ++ join "/" csegs)%string ->
  DOWNLOAD_DIR cfg = join "/" dsegs ->
  Forall (fun s => plain s = true) (csegs ++ dsegs ++ fsegs) ->
  fsegs <> [] ->
  localPath W cfg (join "/" fsegs)
  = ("/" ++ join "/" (csegs ++ dsegs ++ fsegs))%string.
Proof.
  intros Hcwd Hdir Hall Hne.
  apply Forall_app in Hall as [Hc Hall]. apply Forall_app in Hall as [Hd Hf].
  assert (Htruthy : forall l, l <> [] -> Forall (fun s => plain s = true) l ->
                              truthy (join "/" l) = true).
  { intros l Hl Hp. apply join_truthy; [exact Hl|].
    eapply Forall_impl; [|exact Hp]. intros s Hs. now apply plain_facts in Hs. }
  assert (Hsplit : forall l, l <> [] -> Forall (fun s => plain s = true) l ->
                             split_on "/" (join "/" l) = l).
  { intros l Hl Hp. apply split_join; [exact Hl|].
    eapply Forall_impl; [|exact Hp]. intros s Hs. now apply plain_facts in Hs. }
  assert (Hweak : forall l, Forall (fun s => plain s = true) l ->
                            Forall (fun s => s = EmptyString \/ plain s = true) l).
  { intros l Hp. eapply Forall_impl; [|exact Hp]. intros s Hs. now right. }
  destruct (split_join_plain csegs Hc) as [Hcf Hca].
  pose proof (Hsplit fsegs Hne Hf) as Hsf.
  pose proof (Htruthy fsegs Hne Hf) as Htf.
  pose proof (ends_with_slash_join fsegs Hne Hf) as Hef.
  unfold localPath. rewrite Hcwd, Hdir.
  destruct dsegs as [|d dsegs].
  - change (join "/" []) with EmptyString.
    rewrite path_join_no_dir; [|reflexivity|exact Htf].
    revert Hsf Htf Hef Hcf Hca. generalize (join "/" fsegs) as F.
    generalize (join "/" csegs) as C. intros C F Hsf Htf Hef Hcf Hca.
    change (("/" ++ C) ++ "/" ++ F)%string with (String "/" (C ++ String "/" F)).
    apply normalize_absolute.
    + rewrite split_app, Hsf. apply Forall_app. auto.
    + rewrite split_app, Hsf, filter_app, Hcf.
      now rewrite (filter_truthy_plain fsegs Hf).
    + destruct csegs; [|discriminate]. destruct fsegs; [now elim Hne | discriminate].
    + apply Forall_app. auto.
    + change (C ++ String "/" F)%string with (C ++ ("/" ++ F))%string.
      rewrite <- append_assoc, ends_with_slash_app; auto.
  - pose proof (Hsplit (d :: dsegs) ltac:(discriminate) Hd) as Hsd.
    pose proof (Htruthy (d :: dsegs) ltac:(discriminate) Hd) as Htd.
    rewrite path_join_with_dir; [|reflexivity|exact Htd|exact Htf].
    revert Hsf Htf Hef Hcf Hca Hsd Htd. generalize (join "/" fsegs) as F.
    generalize (join "/" (d :: dsegs)) as D. generalize (join "/" csegs) as C.
    intros C D F Hsf Htf Hef Hcf Hca Hsd Htd.
    change (("/" ++ C) ++ "/" ++ D ++ "/" ++ F)%string
      with (String "/" (C ++ String "/" (D ++ String "/" F))).
    apply normalize_absolute.
    + rewrite !split_app, Hsf, Hsd. repeat (apply Forall_app; split); auto.
    + rewrite !split_app, Hsf, Hsd, !filter_app, Hcf.
      now rewrite (filter_truthy_plain fsegs Hf), (filter_truthy_plain _ Hd).
    + destruct csegs; discriminate.
    + repeat (apply Forall_app; split); auto.
    + change (C ++ String "/" (D ++ String "/" F))%string
        with (C ++ ("/" ++ D ++ ("/" ++ F)))%string.
      rewrite <- !append_assoc, ends_with_slash_app; auto.
Qed.

Lemma join_injective (a b : list string) :
  a <> [] -> b <> [] ->
  Forall (fun s => plain s = true) a -> Forall (fun s => plain s = true) b ->
  join "/" a = join "/" b -> a = b.
Proof.
  intros Ha Hb Hpa Hpb H. apply (f_equal (split_on "/")) in H.
  rewrite !split_join in H; auto;
    (eapply Forall_impl; [|eassumption]); intros s Hs; now apply plain_facts in Hs.
Qed.

(** X15. When the working directory is an absolute path of ordinary names
    (not empty, not [.] or [..], without [/]), the destination directory a
    relative path of ordinary names (or empty) and the path of a file is made
    of ordinary names, the local path of the file is the three written one
    after the other, [/]-separated; and two such files with the same local
    path are the same file. *)
Theorem local_path_of_ordinary_names
    (W : world) (cfg : config) (csegs dsegs fsegs : list string)
    (Hcwd : cwd W = ("/" ++ join "/" csegs)%string)
    (Hdir : DOWNLOAD_DIR cfg = join "/" dsegs)
    (Hall : Forall (fun s => plain s = true) (csegs ++ dsegs ++ fsegs))
    (Hne : fsegs <> []) :
  localPath W cfg (join "/" fsegs)
  = ("/" ++ join "/" (csegs ++ dsegs ++ fsegs))%string
  /\ forall gsegs,
       gsegs <> [] -> Forall (fun s => plain s = true) gsegs ->
       localPath W cfg (join "/" gsegs) = localPath W cfg (join "/" fsegs) ->
       gsegs = fsegs.
Proof.
  pose proof (localPath_plain W cfg csegs dsegs fsegs Hcwd Hdir Hall Hne) as Hf.
  split; [exact Hf|].
  intros gsegs Hg Hpg Heq.
  apply Forall_app in Hall as [Hc Hall']. apply Forall_app in Hall' as [Hd Hpf].
  assert (Hallg : Forall (fun s => plain s = true) (csegs ++ dsegs ++ gsegs))
    by (repeat (apply Forall_app; split); auto).
  rewrite Hf, (localPath_plain W cfg csegs dsegs gsegs Hcwd Hdir Hallg Hg) in Heq.
  injection Heq as Heq. apply join_injective in Heq.
  - now apply app_inv_head in Heq; apply app_inv_head in Heq.
  - destruct csegs; [destruct dsegs; [exact Hg|]|]; discriminate.
  - destruct csegs; [destruct dsegs; [exact Hne|]|]; discriminate.
  - exact Hallg.
  - repeat (apply Forall_app; split); auto.
Qed.

Lemma local_path_of_ordinary_names_witness :
  cwd sample_world = ("/" ++ join "/" ["home"; "u"])%string
  /\ DOWNLOAD_DIR sample_cfg = join "/" ["downloads"]
  /\ localPath sample_world sample_cfg (join "/" ["proto"; "a.proto"])
     = "/home/u/downloads/proto/a.proto".
Proof.
  split; [reflexivity|]. split; [reflexivity|].
  apply (local_path_of_ordinary_names sample_world sample_cfg
           ["home"; "u"] ["downloads"] ["proto"; "a.proto"] eq_refl eq_refl).
  - repeat constructor.
  - discriminate.
Defined.

Lemma join_snoc (sep : string) (l : list string) (x : string) :
  l <> [] -> join sep (l ++ [x]) = (join sep l ++ sep ++ x)%string.
Proof.
  induction l as [|a [|b l] IH]; intros Hne; [now elim Hne|reflexivity|].
  change ((a :: b :: l) ++ [x]) with (a :: (b :: l) ++ [x]).
  change (join sep (a :: (b :: l) ++ [x]))
    with (a ++ sep ++ join sep ((b :: l) ++ [x]))%string.
  rewrite IH by discriminate. rewrite join_cons2.
  now rewrite !append_assoc.
Qed.

Lemma fullPath_join (rsegs : list string) (it : item) :
  rsegs <> [] -> Forall (fun s => plain s = true) rsegs ->
  fullPath (join "/" rsegs) it = join "/" (rsegs ++ [name it]).
Proof.
  intros Hne Hp. unfold fullPath. rewrite join_truthy.
  - now rewrite join_snoc.
  - exact Hne.
  - eapply Forall_impl; [|exact Hp]. intros s Hs. now apply plain_facts in Hs.
Qed.

Lemma visits_segments (W : world) (cfg : config) (p q : string) :
  (forall p' it, In it (fst (fetchTree W p')) -> plain (name it) = true) ->
  visits W cfg p q ->
  forall rsegs,
    p = join "/" rsegs -> rsegs <> [] -> Forall (fun s => plain s = true) rsegs ->
    exists segs,
      q = join "/" (rsegs ++ segs) /\ Forall (fun s => plain s = true) segs.
Proof.
  intros Hnames. induction 1 as [p|p it q (Hit & _ & _) _ IH]; intros rsegs -> Hne Hp.
  - exists []. rewrite app_nil_r. auto.
  - destruct (IH (rsegs ++ [name it])) as (segs & -> & Hsegs).
    + now apply fullPath_join.
    + destruct rsegs; discriminate.
    + apply Forall_app. split; [exact Hp|]. constructor; [|constructor].
      exact (Hnames _ it Hit).
    + exists (name it :: segs). rewrite <- app_assoc. split; [reflexivity|].
      constructor; [exact (Hnames _ it Hit) | exact Hsegs].
Qed.

(** X16. When the working directory, the destination directory, the root
    folder and all the names that the server lists are ordinary, every write
    of a run of the parallel engine goes below the destination directory, to
    the working directory, the destination, the root folder and the names
    down to the file, [/]-separated; and two writes to the same local path
    write the same bytes. *)
Theorem writes_stay_in_destination
    (W : world) (cfg : config) (fuel : nat) (root : string) (tr : trace)
    (csegs dsegs : list string)
    (Hrun : Cli.downloadFolder W cfg fuel root tr)
    (Hcwd : cwd W = ("/" ++ join "/" csegs)%string)
    (Hdir : DOWNLOAD_DIR cfg = join "/" dsegs)
    (Hplain : Forall (fun s => plain s = true) (csegs ++ dsegs ++ [root]))
    (Hnames : forall p it, In it (fst (fetchTree W p)) -> plain (name it) = true) :
  (forall lp data,
      In (OutputFile lp data) tr ->
      exists segs,
        segs <> [] /\ Forall (fun s => plain s = true) segs
        /\ lp = ("/" ++ join "/" (csegs ++ dsegs ++ root :: segs))%string)
  /\ (forall lp data data',
         In (OutputFile lp data) tr -> In (OutputFile lp data') tr -> data = data').
Proof.
  apply Forall_app in Hplain as [Hc Hplain]. apply Forall_app in Hplain as [Hd Hr].
  inversion Hr as [|? ? Hroot _]; subst.
  assert (Hwrite : forall lp data,
             In (OutputFile lp data) tr ->
             exists fsegs,
               fsegs <> [] /\ Forall (fun s => plain s = true) fsegs
               /\ lp = localPath W cfg (join "/" (root :: fsegs))
               /\ raw_resp W (join "/" (root :: fsegs)) = Ok data).
  { intros lp data H.
    destruct (outputs_are_joined W cfg fuel root tr lp data Hrun H)
      as (q & it & Hq & Hit & _ & -> & Hraw).
    destruct (visits_segments W cfg root q Hnames Hq [root] eq_refl)
      as (segs & -> & Hsegs); [discriminate | now constructor |].
    rewrite fullPath_join in Hraw |- *;
      try discriminate; try (constructor; assumption).
    exists (segs ++ [name it]). split; [destruct segs; discriminate|].
    split; [apply Forall_app; split; [exact Hsegs|]; constructor;
            [exact (Hnames _ it Hit) | constructor]|].
    rewrite <- app_assoc in Hraw |- *. split; [reflexivity | exact Hraw]. }
  assert (Hfull : forall fsegs,
             Forall (fun s => plain s = true) fsegs ->
             Forall (fun s => plain s = true) (csegs ++ dsegs ++ root :: fsegs)).
  { intros fsegs Hf. repeat (apply Forall_app; split); auto. }
  split.
  - intros lp data H. destruct (Hwrite lp data H) as (fsegs & Hne & Hf & -> & _).
    exists fsegs. split; [exact Hne|]. split; [exact Hf|].
    apply (localPath_plain W cfg csegs dsegs (root :: fsegs) Hcwd Hdir (Hfull _ Hf)).
    discriminate.
  - intros lp data data' H H'.
    destruct (Hwrite lp data H) as (fsegs & Hne & Hf & -> & Hraw).
    destruct (Hwrite _ data' H') as (gsegs & Hne' & Hg & Heq & Hraw').
    rewrite (localPath_plain W cfg csegs dsegs (root :: fsegs) Hcwd Hdir (Hfull _ Hf)),
      (localPath_plain W cfg csegs dsegs (root :: gsegs) Hcwd Hdir (Hfull _ Hg))
      in Heq by discriminate.
    injection Heq as Heq. apply join_injective in Heq.
    + do 2 apply app_inv_head in Heq. injection Heq as <-. congruence.
    + destruct csegs; [destruct dsegs|]; discriminate.
    + destruct csegs; [destruct dsegs|]; discriminate.
    + exact (Hfull _ Hf).
    + exact (Hfull _ Hg).
Qed.

Lemma sample_names_plain :
  forall p it, In it (fst (fetchTree sample_world p)) -> plain (name it) = true.
Proof.
  intros p it. unfold fetchTree. simpl. unfold sample_tree.
  destruct (p =? "proto")%string; [|destruct (p =? "proto/sub")%string;
    [|destruct (p =? "build")%string]]; simpl; intros H;
    repeat (destruct H as [<-|H]; [reflexivity|]); contradiction.
Qed.

Lemma writes_stay_in_destination_witness :
  Cli.downloadFolder sample_world sample_cfg 2 "proto" overlapped_run
  /\ exists segs,
       segs <> [] /\ Forall (fun s => plain s = true) segs
       /\ "/home/u/downloads/proto/sub/b.proto"
          = ("/" ++ join "/" (["home"; "u"] ++ ["downloads"] ++ "proto" :: segs))%string.
Proof.
  destruct overlapped_run_is_run as [Hrun _].
  split; [exact Hrun|].
  apply (writes_stay_in_destination sample_world sample_cfg 2 "proto" overlapped_run
           ["home"; "u"] ["downloads"] Hrun eq_refl eq_refl) with (data := [x62]).
  - repeat constructor.
  - exact sample_names_plain.
  - simpl. auto 20.
Defined.

(* ================================================================== *)
(** * The root folders and the ignored folders *)

Lemma folders_runs (W : world) (cfg : config) (folders : list string) :
  forall tr : trace,
    Cli.downloadFolders W cfg folders tr ->
    forall root, In root folders ->
                 exists fuel t, Cli.downloadFolder W cfg fuel root t /\ incl t tr.
Proof.
  induction folders as [|f rest IH]; simpl; intros tr Htr root; [contradiction|].
  destruct Htr as (t & t' & [fuel Hrun] & Hrest & ->). intros [<-|Hin].
  - exists fuel, t. split; [exact Hrun|]. intros e He. apply in_or_app. now left.
  - destruct (IH t' Hrest root Hin) as (fu & u & Hu & Hincl).
    exists fu, u. split; [exact Hu|]. intros e He. apply in_or_app. right. auto.
Qed.

(** X17. The include list does not apply to the two root folders: a run of
    [main] that completes lists [proto] and [build] and fetches every file
    entry that these listings return, whatever the include list holds. *)
Theorem roots_are_not_filtered
    (W : world) (cfg : config) (o : Cli.outcome)
    (Hrun : Cli.main W cfg o)
    (Hdone : Cli.out_status o = Cli.Completed) :
  forall root,
    In root FOLDERS_TO_DOWNLOAD ->
    In (GetTree root) (Cli.out_trace o)
    /\ forall it,
         In it (fst (fetchTree W root)) -> type it = "blob" ->
         In (GetRaw (fullPath root it)) (Cli.out_trace o).
Proof.
  destruct Hrun as [Hun|latest Hl Ht Hs|latest Hl Ht Hs|latest tr Hl Ht Hs Htr];
    try discriminate.
  cbn [Cli.out_trace]. intros root Hroot.
  destruct (folders_runs W cfg _ tr Htr root Hroot) as (fuel & t & Hrun & Hincl).
  assert (Hin : forall e, In e t ->
                          In e (Cli.run_cache W cfg ++ tr
                                ++ [WriteCache (Cli.cache_record latest
                                                  (Cli.generateArgsHash cfg));
                                    Console Log "Download complete."])).
  { intros e He. apply in_or_app. right. apply in_or_app. left. now apply Hincl. }
  split.
  - apply Hin. apply (run_lists W cfg fuel root t Hrun). constructor.
  - intros it Hit Hb. apply Hin. apply (run_fetches W cfg fuel root t Hrun).
    exists root, it. repeat split; auto. constructor.
Qed.

Lemma roots_are_not_filtered_witness :
  Cli.main sample_world sample_cfg sample_outcome
  /\ In (GetTree "build") (Cli.out_trace sample_outcome)
  /\ In (GetRaw "build/out.bin") (Cli.out_trace sample_outcome).
Proof.
  destruct (roots_are_not_filtered sample_world sample_cfg sample_outcome
              sample_outcome_is_run eq_refl "build") as [Hl Hf].
  - simpl. auto.
  - split; [exact sample_outcome_is_run|]. split; [exact Hl|].
    apply (Hf (entry "out.bin" "blob")); [simpl; auto | reflexivity].
Defined.

Lemma append_inv_tail (a b s : string) : (a ++ s = b ++ s)%string -> a = b.
Proof.
  revert b. induction a as [|c a IH]; intros [|d b]; simpl; intros H.
  - reflexivity.
  - apply (f_equal String.length) in H. simpl in H.
    rewrite string_length_app in H. lia.
  - apply (f_equal String.length) in H. simpl in H.
    rewrite string_length_app in H. lia.
  - injection H as -> H. f_equal. now apply IH.
Qed.

Lemma ignoring_line_inj (fp fp' : string) :
  ignoring_line fp = ignoring_line fp' -> fp = fp'.
Proof.
  unfold ignoring_line. intros [= H].
  now apply append_inv_tail in H.
Qed.

(** X18. In every run of the parallel engine, the "Ignoring folder" lines
    tell the directories that the filter rejected: a line is printed for a
    path iff the path is that of an entry of a listed folder for which the
    guard of the filter holds. *)
Theorem ignoring_lines_match_rejections
    (W : world) (cfg : config) (fuel : nat) (root : string) (tr : trace)
    (Hrun : Cli.downloadFolder W cfg fuel root tr) :
  forall fp,
    In (ignoring_line fp) tr <->
    exists p it,
      In (GetTree p) tr /\ In it (fst (fetchTree W p))
      /\ ignoring cfg it (fullPath p it) = true /\ fp = fullPath p it.
Proof.
  pose proof (run_events_split W cfg fuel root tr Hrun) as Hev.
  pose proof (run_lists W cfg fuel root tr Hrun) as Hl.
  intros fp. split.
  - intros H. apply Hev in H as (q & Hq & [H|(it & Hit & H)]).
    + apply fetchTree_trace in H as [H|(d & _ & H)]; discriminate.
    + apply own_task_cases in H as [[H Hi]|[_ H]].
      * apply ignoring_line_inj in H. exists q, it. rewrite Hl. auto.
      * apply downloadFile_trace in H
          as [H|[(d & _ & _ & [H|H])|(d & H)]]; discriminate.
  - intros (p & it & Hp & Hit & Hi & ->). apply Hev. exists p.
    split; [now apply Hl|]. right. exists it. split; [exact Hit|].
    unfold own_task. rewrite Hi. now left.
Qed.

Lemma ignoring_lines_match_rejections_witness :
  Cli.downloadFolder sample_world sub_cfg 3 "proto"
    (match walk sample_world sub_cfg Debug 3 "proto" with
     | Some t => t
     | None => []
     end)
  /\ In (ignoring_line "proto/broken")
        (match walk sample_world sub_cfg Debug 3 "proto" with
         | Some t => t
         | None => []
         end).
Proof.
  assert (H : Cli.downloadFolder sample_world sub_cfg 3 "proto"
                (match walk sample_world sub_cfg Debug 3 "proto" with
                 | Some t => t
                 | None => []
                 end)) by (apply walk_is_run; reflexivity).
  split; [exact H|].
  apply (ignoring_lines_match_rejections sample_world sub_cfg 3 "proto" _ H).
  exists "proto", (entry "broken" "tree").
  split; [simpl; auto|]. split; [simpl; auto|]. split; reflexivity.
Defined.
